(** * lkml: dictionary <-> syntax tree codec (lkml/interface.py)

    A shallow embedding of [DictVisitor] (tree to mapping) and [DictParser]
    (mapping to tree), and the properties stated about them.

    Conventions of the embedding.
    - A Python [str] is a [string] holding its UTF-8 bytes, which is how
      a string literal is read here; a character is the run of bytes that
      encodes it, and whitespace is what [str.isspace] accepts, inside and
      outside the ASCII range.
    - A Python value is a [pyval]: [str], [int], [list] or [tuple], [dict]
      and [None].  A [dict] is an association list in insertion order, the
      order in which the builder walks it; Python keeps its keys unique.
      The input of the builder is a tree of values: no two positions of it
      hold the same dict object.
    - Both classes keep mutable fields.  They are threaded explicitly: a
      method is a function from the state of the object to an outcome and
      the state afterwards.  A raised exception keeps the state reached so
      far, as no method has a [try] block.
    - [value.pop("name")] changes the mapping of the caller: every builder
      method that is given a part of the input returns that part as the
      call leaves it. *)

From Stdlib Require Import String Ascii List ZArith Bool Lia DecimalString.
Import ListNotations.
Local Open Scope list_scope.
Local Open Scope Z_scope.
Local Open Scope string_scope.

Set Implicit Arguments.
Set Warnings "-register-all".

(** ** Python strings *)

Module PyStr.

(** A byte from 128 to 191 continues the character begun before it. *)
Definition is_continuation (c : ascii) : bool :=
  let n := N_of_ascii c in ((128 <=? n) && (n <=? 191))%N.

(** The characters of a string, in order: each one as the bytes that
    encode it. *)
Fixpoint chars (s : string) : list string :=
  match s with
  | EmptyString => []
  | String c s' =>
      let continued :=
        match s' with
        | String d _ => is_continuation d
        | EmptyString => false
        end in
      match chars s' with
      | ch :: rest =>
          if continued then String c ch :: rest
          else String c EmptyString :: ch :: rest
      | [] => [String c EmptyString]
      end
  end.

(** [str.join] with the empty separator. *)
Definition join (cs : list string) : string := fold_right append EmptyString cs.

(** [str.isspace] for one character: U+0009 to U+000D, U+001C to U+0020,
    U+0085, U+00A0, U+1680, U+2000 to U+200A, U+2028, U+2029, U+202F,
    U+205F and U+3000. *)
Definition is_space (ch : string) : bool :=
  match map N_of_ascii (list_ascii_of_string ch) with
  | [n] => ((9 <=? n) && (n <=? 13) || (28 <=? n) && (n <=? 32))%N
  | [194%N; n] => ((n =? 133) || (n =? 160))%N
  | [225%N; 154%N; 128%N] => true
  | [226%N; 128%N; n] =>
      ((128 <=? n) && (n <=? 138) || (n =? 168) || (n =? 169) || (n =? 175))%N
  | [226%N; 129%N; 159%N] => true
  | [227%N; 128%N; 128%N] => true
  | _ => false
  end.

(** Dropping the items that satisfy [p] from the left end, and from the
    right end. *)
Fixpoint drop_left {A} (p : A -> bool) (l : list A) : list A :=
  match l with
  | [] => []
  | x :: l' => if p x then drop_left p l' else l
  end.

Fixpoint drop_right {A} (p : A -> bool) (l : list A) : list A :=
  match l with
  | [] => []
  | x :: l' =>
      match drop_right p l' with
      | [] => if p x then [] else [x]
      | r => x :: r
      end
  end.

(** [s.strip()] *)
Definition strip (s : string) : string :=
  join (drop_left is_space (drop_right is_space (chars s))).

(** [s.rstrip()] *)
Definition rstrip (s : string) : string := join (drop_right is_space (chars s)).

(** The string of the bytes [l]. *)
Definition of_bytes (l : list N) : string :=
  string_of_list_ascii (map ascii_of_N l).

(** Stripping one ASCII character from the right end can be done on the
    bytes: no byte of a longer character is in the ASCII range. *)
Fixpoint rstrip_by (p : ascii -> bool) (s : string) : string :=
  match s with
  | EmptyString => EmptyString
  | String c s' =>
      match rstrip_by p s' with
      | EmptyString => if p c then EmptyString else String c EmptyString
      | r => String c r
      end
  end.

(** [s.rstrip("s")] *)
Definition rstrip_s (s : string) : string := rstrip_by (Ascii.eqb "s"%char) s.

(** [s * n] for a natural number of repetitions *)
Fixpoint repeat_str (s : string) (n : nat) : string :=
  match n with
  | O => EmptyString
  | S n' => s ++ repeat_str s n'
  end.

(** The line feed character, as a string. *)
Definition nl : string := String (ascii_of_nat 10) EmptyString.

End PyStr.

(** ** Python values *)

Inductive pyval : Type :=
| PStr (s : string)
| PInt (z : Z)
| PList (vs : list pyval)
| PDict (kvs : list (string * pyval))
| PNone.

Definition pydict := list (string * pyval).

Section PyvalInd.
Variable P : pyval -> Prop.
Hypothesis HStr : forall s, P (PStr s).
Hypothesis HInt : forall z, P (PInt z).
Hypothesis HList : forall vs, Forall P vs -> P (PList vs).
Hypothesis HDict : forall kvs, Forall (fun kv => P (snd kv)) kvs -> P (PDict kvs).
Hypothesis HNone : P PNone.

Fixpoint pyval_ind' (v : pyval) : P v :=
  match v with
  | PStr s => HStr s
  | PInt z => HInt z
  | PList vs =>
      HList ((fix go (l : list pyval) : Forall P l :=
                match l with
                | [] => Forall_nil _
                | x :: l' => Forall_cons _ (pyval_ind' x) (go l')
                end) vs)
  | PDict kvs =>
      HDict ((fix go (l : pydict) : Forall (fun kv => P (snd kv)) l :=
                match l with
                | [] => Forall_nil _
                | (k, x) :: l' => Forall_cons (k, x) (pyval_ind' x) (go l')
                end) kvs)
  | PNone => HNone
  end.
End PyvalInd.

(** [str(v)] for the values a token can hold.  The text Python prints for a
    list or a dict is not needed by any property below and is left as the
    parameter [container_repr]. *)
Definition py_str (container_repr : pyval -> string) (v : pyval) : string :=
  match v with
  | PStr s => s
  | PInt z => NilZero.string_of_int (Z.to_int z)
  | PNone => "None"
  | _ => container_repr v
  end.

(** Truth value of [v] in an [if]. *)
Definition truthy (v : pyval) : bool :=
  match v with
  | PStr s => negb (String.eqb s "")
  | PInt z => negb (z =? 0)%Z
  | PList vs => match vs with [] => false | _ => true end
  | PDict kvs => match kvs with [] => false | _ => true end
  | PNone => false
  end.

(** ** Dictionaries in insertion order *)

Module Dict.

Fixpoint get (k : string) (d : pydict) : option pyval :=
  match d with
  | [] => None
  | (k', v) :: d' => if String.eqb k k' then Some v else get k d'
  end.

(** [k in d.keys()] *)
Definition mem (k : string) (d : pydict) : bool :=
  match get k d with Some _ => true | None => false end.

(** [d[k] = v]: an existing key keeps its position, a new key goes last. *)
Fixpoint set (k : string) (v : pyval) (d : pydict) : pydict :=
  match d with
  | [] => [(k, v)]
  | (k', v') :: d' => if String.eqb k k' then (k, v) :: d' else (k', v') :: set k v d'
  end.

(** The dictionary left by [d.pop(k)]. *)
Definition remove (k : string) (d : pydict) : pydict :=
  filter (fun kv => negb (String.eqb k (fst kv))) d.

Definition keys (d : pydict) : list string := map fst d.

End Dict.

(** ** Key classification (lkml/keys.py) *)

(** Modelled from the spec: lkml/keys.py is not among the sources.  Its four
    tables and its two helpers are the fields of [Keys]; every definition
    and theorem below is stated for an arbitrary [Keys]. *)
Class Keys : Type := {
  PLURAL_KEYS : list string;
  KEYS_WITH_NAME_FIELDS : list string;
  QUOTED_LITERAL_KEYS : list string;
  EXPR_BLOCK_KEYS : list string;
  pluralize : string -> string;
  singularize : string -> string
}.

(** [key in TABLE] *)
Definition in_keys (key : string) (table : list string) : bool :=
  existsb (String.eqb key) table.

(** ** Syntax tree (lkml/tree.py) *)

(** Modelled from the spec: lkml/tree.py is not among the sources.  A token
    has a value, an optional prefix and an optional suffix, and is plain,
    quoted or an expression.  Brackets and braces are tokens of which only
    the prefix is ever set; they are represented by that prefix.  [None]
    stands for a prefix or suffix that was not given. *)
Inductive token_class : Type := Plain | Quoted | Expression.

Record SyntaxToken : Type := Token {
  tclass : token_class;
  value : pyval;
  prefix : option string;
  suffix : option string
}.

Inductive node : Type :=
| BlockNode (type : SyntaxToken) (left_brace right_brace : option string)
            (name : option SyntaxToken) (container : list node)
| ListNode (type : SyntaxToken) (left_bracket : option string) (items : list node)
           (right_bracket : option string) (trailing_comma : bool)
| PairNode (type val : SyntaxToken)
| TokenNode (t : SyntaxToken).

Definition ContainerNode := list node.

Record DocumentNode : Type := Document { doc_container : ContainerNode }.

(** ** Outcomes and state *)

(** Exceptions the two classes can raise.  [KeyConflict] and
    [MalformedUpdate] are the two [KeyError]s of [update_tree];
    [UnsupportedValueType] is the [TypeError] of [parse_any]. *)
Inductive exn : Type :=
| KeyConflict (key : string)
| MalformedUpdate
| UnsupportedValueType
| AttributeError
| IndexError
| ValueError.

Inductive result (A : Type) : Type :=
| Ok (a : A)
| Raise (e : exn).
Arguments Ok {A} a.
Arguments Raise {A} e.

Definition M (S A : Type) : Type := S -> result A * S.

Definition ret {S A} (a : A) : M S A := fun st => (Ok a, st).
Definition raise {S A} (e : exn) : M S A := fun st => (Raise e, st).
Definition bind {S A B} (m : M S A) (k : A -> M S B) : M S B :=
  fun st => match m st with
            | (Ok a, st') => k a st'
            | (Raise e, st') => (Raise e, st')
            end.
Definition lift {S A} (r : result A) : M S A := fun st => (r, st).

Notation "x <- m ;; k" := (bind m (fun x => k))
  (at level 61, m at next level, right associativity).
Notation "' pat <- m ;; k" := (bind m (fun x => match x with pat => k end))
  (at level 61, pat pattern, m at next level, right associativity).
Notation "m ;;; k" := (bind m (fun _ => k))
  (at level 61, right associativity).

(** [[f(x) for x in xs]], left to right. *)
Definition mapM {S A B} (f : A -> M S B) : list A -> M S (list B) :=
  fix go (xs : list A) : M S (list B) :=
    match xs with
    | [] => ret []
    | x :: xs' => y <- f x ;; ys <- go xs' ;; ret (y :: ys)
    end.

(** ** Mapping-to-tree builder: [DictParser] *)

(** The classes [latest_node] is compared with, and [None]. *)
Inductive latest : Type :=
| LDocumentNode
| LNone
| LBlockNode
| LListNode
| LPairNode.

Record DictParser : Type := Parser {
  parent_key : option string;
  level : Z;
  latest_node : latest
}.

Definition latest_eqb (a b : latest) : bool :=
  match a, b with
  | LDocumentNode, LDocumentNode | LNone, LNone | LBlockNode, LBlockNode
  | LListNode, LListNode | LPairNode, LPairNode => true
  | _, _ => false
  end.

(** A class is true in an [if]; [None] is not. *)
Definition latest_truthy (a : latest) : bool :=
  match a with LNone => false | _ => true end.

(** Assignments to the fields. *)
Definition with_parent_key (k : string) (st : DictParser) : DictParser :=
  {| parent_key := Some k; level := level st; latest_node := latest_node st |}.

Definition with_level (n : Z) (st : DictParser) : DictParser :=
  {| parent_key := parent_key st; level := n; latest_node := latest_node st |}.

Definition with_latest_node (l : latest) (st : DictParser) : DictParser :=
  {| parent_key := parent_key st; level := level st; latest_node := l |}.

(** What [parse_any] returns: one node, or the list [expand_list] made. *)
Inductive any_result : Type :=
| One (n : node)
| Many (ns : list node).

Definition flatten (sequence : list any_result) : list node :=
  flat_map (fun each => match each with Many ns => ns | One n => [n] end) sequence.

Section Builder.
Context {K : Keys}.

Definition base_indent : string := "  ".

(** [DictParser.__init__] *)
Definition init_parser : DictParser :=
  {| parent_key := None; level := 0; latest_node := LDocumentNode |}.

Definition set_parent_key (k : string) : M DictParser unit :=
  fun st => (Ok tt, with_parent_key k st).

Definition set_latest_node (l : latest) : M DictParser unit :=
  fun st => (Ok tt, with_latest_node l st).

Definition get_state : M DictParser DictParser := fun st => (Ok st, st).

Definition increase_level : M DictParser unit :=
  fun st => (Ok tt, with_latest_node LNone (with_level (level st + 1) st)).

Definition decrease_level : M DictParser unit :=
  fun st => (Ok tt, with_level (level st - 1) st).

Definition indent (st : DictParser) : string :=
  if (0 <? level st)%Z then PyStr.repeat_str base_indent (Z.to_nat (level st)) else "".

Definition newline_indent (st : DictParser) : string := PyStr.nl ++ indent st.

(** The [prefix] property. *)
Definition prefix_of (st : DictParser) : string :=
  match latest_node st with
  | LDocumentNode => ""
  | LNone => newline_indent st
  | LBlockNode => PyStr.nl ++ newline_indent st
  | _ => newline_indent st
  end.

Definition is_plural_key (key : string) : M DictParser bool :=
  fun st =>
    let singular_key := singularize key in
    if negb (in_keys singular_key PLURAL_KEYS) then (Ok false, st)
    else if negb (String.eqb singular_key "allowed_value") then (Ok true, st)
    else match parent_key st with
         | None => (Raise AttributeError, st)
         | Some p => (Ok (negb (String.eqb (PyStr.rstrip_s p) "access_grant")), st)
         end.

(** [parse_token] is a static method: it reads no field. *)
Definition parse_token (key : string) (v : pyval) (force_quote : bool)
           (pre suf : option string) : result SyntaxToken :=
  if force_quote || in_keys key QUOTED_LITERAL_KEYS then Ok (Token Quoted v pre suf)
  else if in_keys key EXPR_BLOCK_KEYS then
    match v with
    | PStr s => Ok (Token Expression (PStr (PyStr.strip s ++ " ")) pre suf)
    | _ => Raise AttributeError
    end
  else Ok (Token Plain v pre suf).

(** [SyntaxToken(key, prefix=p)] *)
Definition type_token (key : string) (p : string) : SyntaxToken :=
  Token Plain (PStr key) (Some p) None.

Definition parse_pair (key : string) (v : pyval) : M DictParser node :=
  st <- get_state ;;
  let force_quote := match parent_key st with
                     | Some p => String.eqb p "filters"
                     | None => false
                     end in
  value_syntax_token <- lift (parse_token key v force_quote None None) ;;
  set_latest_node LPairNode ;;;
  ret (PairNode (type_token key (prefix_of st)) value_syntax_token).

(** [[(key, val)] = value.items()] *)
Definition single_item (v : pyval) : result (string * pyval) :=
  match v with
  | PDict [(k, x)] => Ok (k, x)
  | PDict _ => Raise ValueError
  | _ => Raise AttributeError
  end.

Definition is_str_or_int (v : pyval) : bool :=
  match v with PStr _ | PInt _ => true | _ => false end.

(** Items of the inline layout: [enumerate(values)], a space before every
    item but the first. *)
Fixpoint inline_items (key : string) (force_quote : bool) (i : nat)
         (values : list pyval) : result (list node) :=
  match values with
  | [] => Ok []
  | v :: values' =>
      match parse_token key v force_quote
                        (match i with O => None | _ => Some " " end) None with
      | Raise e => Raise e
      | Ok token =>
          match inline_items key force_quote (S i) values' with
          | Raise e => Raise e
          | Ok items => Ok (TokenNode token :: items)
          end
      end
  end.

Definition parse_list (key : string) (values : list pyval) : M DictParser node :=
  let force_quote := String.eqb key "suggestions" in
  set_parent_key key ;;;
  st <- get_state ;;
  let type_tok := type_token key (prefix_of st) in
  let pair_mode := match values with
                   | v0 :: _ => negb (is_str_or_int v0)
                   | [] => false
                   end in
  if (5 <=? Z.of_nat (length values))%Z || pair_mode then
    increase_level ;;;
    items <- mapM (fun v =>
               if pair_mode then
                 '(k, x) <- lift (single_item v) ;;
                 parse_pair k x
               else
                 st' <- get_state ;;
                 token <- lift (parse_token key v force_quote
                                            (Some (newline_indent st')) None) ;;
                 ret (TokenNode token)) values ;;
    decrease_level ;;;
    st' <- get_state ;;
    set_latest_node LListNode ;;;
    ret (ListNode type_tok None items (Some (newline_indent st')) true)
  else
    items <- lift (inline_items key force_quote 0 values) ;;
    set_latest_node LListNode ;;;
    ret (ListNode type_tok None items None false).

(** [[self.parse_any(key, value) for key, value in items.items()]], where
    the entries for which [skip] holds are passed over and dropped.  With
    [parse_any] for [rec] this is the list comprehension of [parse_block]
    and of [parse].  Next to the results it returns the entries as the
    calls left them. *)
Definition parse_items (rec : string -> pyval -> M DictParser (any_result * pyval))
           (skip : string -> bool)
  : pydict -> M DictParser (list any_result * pydict) :=
  fix go (kvs : pydict) : M DictParser (list any_result * pydict) :=
    match kvs with
    | [] => ret ([], [])
    | (k, v) :: kvs' =>
        if skip k then go kvs'
        else
          '(r, v') <- rec k v ;;
          '(rs, kvs'') <- go kvs' ;;
          ret (r :: rs, (k, v') :: kvs'')
    end.

(** [[self.parse_any(singular_key, value) for value in values]] *)
Definition parse_values (rec : pyval -> M DictParser (any_result * pyval))
  : list pyval -> M DictParser (list any_result * list pyval) :=
  fix go (vs : list pyval) : M DictParser (list any_result * list pyval) :=
    match vs with
    | [] => ret ([], [])
    | v :: vs' =>
        '(r, v') <- rec v ;;
        '(rs, vs'') <- go vs' ;;
        ret (r :: rs, v' :: vs'')
    end.

(** The body of [parse_block] around its list comprehension [body]. *)
Definition parse_block_around (key : string) (name : option pyval)
           (body : M DictParser (list any_result * pydict))
  : M DictParser (node * pydict) :=
  set_parent_key key ;;;
  st0 <- get_state ;;
  let latest_node_at_this_level := latest_node st0 in
  increase_level ;;;
  '(nodes, items') <- body ;;
  decrease_level ;;;
  set_latest_node latest_node_at_this_level ;;;
  let container := flatten nodes in
  st <- get_state ;;
  let pre := if latest_truthy (latest_node st)
                && negb (latest_eqb (latest_node st) LDocumentNode)
             then PyStr.nl ++ newline_indent st
             else prefix_of st in
  let named := match name with Some n => truthy n | None => false end in
  let node :=
    BlockNode (type_token key pre)
              (Some (if named then " " else ""))
              (Some (match container with [] => "" | _ => newline_indent st end))
              (match name with
               | Some n => if truthy n then Some (Token Plain n None None) else None
               | None => None
               end)
              container in
  set_latest_node LBlockNode ;;;
  ret (node, items').

(** [parse_any key value], with the calls it makes on [expand_list],
    [parse_list] and [parse_block].  The second component of the result
    is [value] after the call.  For a dict whose ["name"] is popped the
    comprehension of [parse_block] runs over the entries that are left:
    the recursion passes over the popped entry.  [parse_any_list] and
    [parse_any_dict] below state the two cases with [expand_list] and
    [parse_block] as the source writes them. *)
Fixpoint parse_any (key : string) (v : pyval) {struct v}
  : M DictParser (any_result * pyval) :=
  match v with
  | PStr _ =>
      n <- parse_pair key v ;; ret (One n, v)
  | PList values =>
      plural <- is_plural_key key ;;
      if plural then
        let singular_key := singularize key in
        '(nodes, values') <- parse_values (parse_any singular_key) values ;;
        ret (Many (flatten nodes), PList values')
      else
        n <- parse_list key values ;; ret (One n, v)
  | PDict d =>
      let pop := negb (in_keys key KEYS_WITH_NAME_FIELDS || negb (Dict.mem "name" d)) in
      let name := if pop then Dict.get "name" d else None in
      '(n, d') <- parse_block_around key name
                    (parse_items parse_any
                       (fun k => pop && String.eqb "name" k) d) ;;
      ret (One n, PDict d')
  | _ => raise UnsupportedValueType
  end.

Definition parse_block (key : string) (items : pydict) (name : option pyval)
  : M DictParser (node * pydict) :=
  parse_block_around key name (parse_items parse_any (fun _ => false) items).

Definition expand_list (key : string) (values : list pyval)
  : M DictParser (list node * list pyval) :=
  let singular_key := singularize key in
  '(nodes, values') <- parse_values (parse_any singular_key) values ;;
  ret (flatten nodes, values').

(** [DictParser.parse]: the document, and [obj] as the call leaves it. *)
Definition parse (obj : pydict) : M DictParser (DocumentNode * pydict) :=
  '(nodes, obj') <- parse_items parse_any (fun _ => false) obj ;;
  ret (Document (flatten nodes), obj').

End Builder.

(** ** Tree-to-mapping visitor: [DictVisitor] *)

(** [depth] is the field of the class; [warnings] records, latest first, the
    keys for which [logger.warning] was called. *)
Record DictVisitor : Type := Visitor {
  depth : Z;
  warnings : list string
}.

(** The text of [str(v)] for a list or a dict [v]. *)
Class Repr : Type := container_repr : pyval -> string.

Section Visitor.
Context {K : Keys} {R : Repr}.

(** [DictVisitor.__init__] *)
Definition init_visitor : DictVisitor := {| depth := -1; warnings := [] |}.

Definition add_depth (d : Z) : M DictVisitor unit :=
  fun st => (Ok tt, {| depth := depth st + d; warnings := warnings st |}).

Definition get_depth : M DictVisitor Z := fun st => (Ok (depth st), st).

Definition warn (key : string) : M DictVisitor unit :=
  fun st => (Ok tt, {| depth := depth st; warnings := key :: warnings st |}).

(** [update_tree target update] returns [target] as the call leaves it. *)
Definition update_tree (target : pydict) (update : pyval) : M DictVisitor pydict :=
  match update with
  | PDict [] => raise IndexError
  | PDict [(key, x)] =>
      if in_keys key PLURAL_KEYS then
        let plural_key := pluralize key in
        if Dict.mem plural_key target then
          match Dict.get plural_key target with
          | Some (PList l) => ret (Dict.set plural_key (PList (l ++ [x])) target)
          | _ => raise AttributeError
          end
        else ret (Dict.set plural_key (PList [x]) target)
      else if Dict.mem key target then
        d <- get_depth ;;
        if (d =? 0)%Z then
          warn key ;;;
          ret (Dict.set key x target)
        else raise (KeyConflict key)
      else ret (Dict.set key x target)
  | PDict _ => raise MalformedUpdate
  | _ => raise AttributeError
  end.

Definition visit_token (token : SyntaxToken) : string :=
  py_str container_repr (value token).

(** The loop of [visit_container]. *)
Definition visit_items (rec : node -> M DictVisitor pyval)
  : list node -> pydict -> M DictVisitor pydict :=
  fix go (items : list node) (container : pydict) : M DictVisitor pydict :=
    match items with
    | [] => ret container
    | item :: items' =>
        update <- rec item ;;
        container' <- update_tree container update ;;
        go items' container'
    end.

Definition visit_container_with (rec : node -> M DictVisitor pyval)
           (items : ContainerNode) : M DictVisitor pydict :=
  match items with
  | [] => ret []
  | _ =>
      add_depth 1 ;;;
      container <- visit_items rec items [] ;;
      add_depth (-1) ;;;
      ret container
  end.

(** [node.accept(self)]: the dispatch on the class of the node, with the
    bodies of [visit_block], [visit_list], [visit_pair] and
    [visit_token]. *)
Fixpoint accept (n : node) : M DictVisitor pyval :=
  match n with
  | BlockNode type _ _ name container =>
      container_dict <- visit_container_with accept container ;;
      let container_dict :=
        match name with
        | Some t => Dict.set "name" (PStr (visit_token t)) container_dict
        | None => container_dict
        end in
      ret (PDict [(visit_token type, PDict container_dict)])
  | ListNode type _ items _ _ =>
      vs <- mapM accept items ;;
      ret (PDict [(visit_token type, PList vs)])
  | PairNode type val =>
      ret (PDict [(visit_token type, PStr (visit_token val))])
  | TokenNode t => ret (PStr (visit_token t))
  end.

Definition visit_container (items : ContainerNode) : M DictVisitor pydict :=
  visit_container_with accept items.

Definition visit (document : DocumentNode) : M DictVisitor pydict :=
  visit_container (doc_container document).

End Visitor.

(** ** A sample classification *)

(** Tables in the style of LookML, for the concrete runs below: the
    singular of a key drops its trailing [s], the plural adds one. *)
Module Sample.

#[export] Instance keys : Keys := {|
  PLURAL_KEYS := ["view"; "dimension"; "measure"; "filter"; "join"; "explore";
                  "allowed_value"; "access_grant"];
  KEYS_WITH_NAME_FIELDS := ["user_attribute_param"; "param"; "form_param"; "option"];
  QUOTED_LITERAL_KEYS := ["label"; "description"; "value_format"];
  EXPR_BLOCK_KEYS := ["sql"; "sql_on"; "html"; "expression"];
  pluralize := fun key => key ++ "s";
  singularize := PyStr.rstrip_s
|}.

#[export] Instance repr : Repr := fun _ => "<container>".

End Sample.

(** ** Vocabulary of the statements *)

Module PyStrSpec.

Fixpoint all_by (p : ascii -> bool) (s : string) : bool :=
  match s with
  | EmptyString => true
  | String c s' => p c && all_by p s'
  end.

(** A run of [n] spaces. *)
Definition spaces (n : nat) : string := string_of_list_ascii (repeat " "%char n).

(** The last item of a list. *)
Fixpoint last_item {A} (l : list A) : option A :=
  match l with
  | [] => None
  | [x] => Some x
  | _ :: l' => last_item l'
  end.

(** [x] is absent or fails [p]. *)
Definition not_by {A} (p : A -> bool) (x : option A) : Prop :=
  match x with Some x => p x = false | None => True end.

End PyStrSpec.

(** The key a type token carries. *)
Definition token_key_is (k : string) (t : SyntaxToken) : bool :=
  match value t with PStr s => String.eqb s k | _ => false end.

(** The class of the value token of the pair reached by [path]: the keys of
    the enclosing blocks, outermost first, then the key of the pair. *)
Fixpoint pair_class (path : list string) (nodes : list node) : option token_class :=
  match path with
  | [] => None
  | [k] =>
      (fix find (ns : list node) : option token_class :=
         match ns with
         | [] => None
         | PairNode ty v :: ns' => if token_key_is k ty then Some (tclass v) else find ns'
         | _ :: ns' => find ns'
         end) nodes
  | k :: path' =>
      (fix find (ns : list node) : option token_class :=
         match ns with
         | [] => None
         | BlockNode ty _ _ _ body :: ns' =>
             if token_key_is k ty then pair_class path' body else find ns'
         | _ :: ns' => find ns'
         end) nodes
  end.

Section NodeInd.
Variable P : node -> Prop.
Hypothesis HBlock : forall type lb rb name container,
    Forall P container -> P (BlockNode type lb rb name container).
Hypothesis HList : forall type lb items rb tc,
    Forall P items -> P (ListNode type lb items rb tc).
Hypothesis HPair : forall type val, P (PairNode type val).
Hypothesis HToken : forall t, P (TokenNode t).

Fixpoint node_ind' (n : node) : P n :=
  let all := fix go (l : list node) : Forall P l :=
               match l with
               | [] => Forall_nil _
               | x :: l' => Forall_cons _ (node_ind' x) (go l')
               end in
  match n with
  | BlockNode type lb rb name container => HBlock type lb rb name (all container)
  | ListNode type lb items rb tc => HList type lb rb tc (all items)
  | PairNode type val => HPair type val
  | TokenNode t => HToken t
  end.
End NodeInd.

Section VisitorSpec.

(** A computation that, when it returns, leaves [depth] as it found it. *)
Definition keeps_depth {A} (m : M DictVisitor A) : Prop :=
  forall st a st', m st = (Ok a, st') -> depth st' = depth st.

(** A computation whose outcome and final [depth] depend on the initial
    state through [depth] only. *)
Definition depth_only {A} (m : M DictVisitor A) : Prop :=
  forall st1 st2, depth st1 = depth st2 ->
                  fst (m st1) = fst (m st2) /\ depth (snd (m st1)) = depth (snd (m st2)).

End VisitorSpec.

Section BuilderSpec.
Context {K : Keys}.

(** [force_quote] as [parse_pair] computes it. *)
Definition pair_force_quote (st : DictParser) : bool :=
  match parent_key st with
  | Some p => String.eqb p "filters"
  | None => false
  end.

(** The list elements of which a token can be made under [key]: every
    string, and any other value when the token is quoted or [key] is no
    expression key. *)
Definition takes_element (key : string) (v : pyval) : bool :=
  match v with
  | PStr _ => true
  | _ => String.eqb key "suggestions" || in_keys key QUOTED_LITERAL_KEYS
         || negb (in_keys key EXPR_BLOCK_KEYS)
  end.

(** A computation that, when it returns, leaves [level] as it found it. *)
Definition keeps_level {A} (m : M DictParser A) : Prop :=
  forall st a st', m st = (Ok a, st') -> level st' = level st.

(** The value [{k: s}] of a pair-mode item. *)
Definition pair_item (ks : string * string) : pyval :=
  PDict [(fst ks, PStr (snd ks))].

(** The test of [parse_any] under which ["name"] is popped from [d]. *)
Definition pops_name (key : string) (d : pydict) : bool :=
  negb (in_keys key KEYS_WITH_NAME_FIELDS || negb (Dict.mem "name" d)).

(** What [parse_any key v] leaves of the value [v] it is given.  A string
    is left as it is.  A list under a key whose singular is repeatable is
    expanded: each of its elements is built under the singular key and is
    left as that leaves it; a list under any other key goes to
    [parse_list] and is left as it is, with all it holds.  A mapping is
    built as a block: its ["name"] entry is removed when [pops_name]
    holds, and the value of every other entry is left as building it
    under its own key leaves it. *)
Fixpoint left_by (key : string) (v : pyval) : pyval :=
  match v with
  | PList vs =>
      if in_keys (singularize key) PLURAL_KEYS
      then PList (map (left_by (singularize key)) vs)
      else PList vs
  | PDict d =>
      let pop := pops_name key d in
      PDict (flat_map (fun kv => if pop && String.eqb "name" (fst kv) then []
                                 else [(fst kv, left_by (fst kv) (snd kv))]) d)
  | _ => v
  end.

(** What [parse] leaves of the mapping it is given. *)
Definition left_document (m : pydict) : pydict :=
  map (fun kv => (fst kv, left_by (fst kv) (snd kv))) m.

(** No list is held under a key whose singular is the repeatable key
    [allowed_value]: that is the one key for which the test of
    [is_plural_key] reads [parent_key]. *)
Fixpoint no_allowed_value_list (key : string) (v : pyval) : bool :=
  match v with
  | PList vs =>
      if in_keys (singularize key) PLURAL_KEYS
      then negb (String.eqb (singularize key) "allowed_value")
           && forallb (no_allowed_value_list (singularize key)) vs
      else true
  | PDict d => forallb (fun kv => no_allowed_value_list (fst kv) (snd kv)) d
  | _ => true
  end.

End BuilderSpec.

(** ** The mapping a round trip gives back *)

Section RoundTripSpec.
Context {K : Keys}.

(** The string that comes back for the string [s] held under [key]: an
    expression key gives [s] without the whitespace at its ends, followed
    by one space; any other key, and any quoted key, gives [s]. *)
Definition norm_value (key s : string) : string :=
  if in_keys key QUOTED_LITERAL_KEYS then s
  else if in_keys key EXPR_BLOCK_KEYS then PyStr.strip s ++ " "
  else s.

(** The same for an element of a list held under [key]: the elements of
    [suggestions] are always quoted. *)
Definition norm_element (key : string) (v : pyval) : pyval :=
  match v with
  | PStr s => PStr (if String.eqb key "suggestions" then s else norm_value key s)
  | PDict [(k, PStr s)] => PDict [(k, PStr (norm_value k s))]
  | _ => v
  end.

(** A list in plural form: a list under a key whose singular is
    repeatable. *)
Definition plural_list (key : string) (v : pyval) : bool :=
  match v with
  | PList _ => in_keys (singularize key) PLURAL_KEYS
  | _ => false
  end.

(** (a) The key an entry under [key] comes back under, and the value it
    comes back with, [x] being its value in canonical form.  A list in
    plural form stays as it is; any other entry under a repeatable key
    comes back under the plural of the key, as a list of one value. *)
Definition back_key (key : string) (v : pyval) : string :=
  if plural_list key v then key
  else if in_keys key PLURAL_KEYS then pluralize key else key.

Definition back_value (key : string) (v x : pyval) : pyval :=
  if plural_list key v then x
  else if in_keys key PLURAL_KEYS then PList [x] else x.

(** The canonical form of the value [v] held under [key].
    - (c) A string is normalised by [norm_value].
    - A list in plural form holds its elements in canonical form under
      the singular key; the elements of any other list are normalised by
      [norm_element].
    - (a), (b) A mapping holds its entries in their order, each with
      [back_key] and [back_value]; when its name was taken out, the
      ["name"] entry stands after the others. *)
Fixpoint canonical_value (key : string) (v : pyval) : pyval :=
  match v with
  | PStr s => PStr (norm_value key s)
  | PList vs =>
      if in_keys (singularize key) PLURAL_KEYS
      then PList (map (canonical_value (singularize key)) vs)
      else PList (map (norm_element key) vs)
  | PDict d =>
      let pop := pops_name key d in
      let body :=
        flat_map (fun kv =>
                    if pop && String.eqb "name" (fst kv) then []
                    else [(back_key (fst kv) (snd kv),
                           back_value (fst kv) (snd kv)
                                      (canonical_value (fst kv) (snd kv)))]) d in
      PDict (match (if pop then Dict.get "name" d else None) with
             | Some name => (body ++ [("name", name)])%list
             | None => body
             end)
  | _ => v
  end.

Definition canonical_entry (kv : string * pyval) : string * pyval :=
  (back_key (fst kv) (snd kv),
   back_value (fst kv) (snd kv) (canonical_value (fst kv) (snd kv))).

(** The canonical form of a document. *)
Definition canonical (m : pydict) : pydict := map canonical_entry m.


(** Merging one entry into a mapping: a repeated singular key joins the
    list under its plural; any other key must be new. *)
Definition merge (target : pydict) (kx : string * pyval) : option pydict :=
  let (k, x) := kx in
  if in_keys k PLURAL_KEYS then
    let plural_key := pluralize k in
    match Dict.get plural_key target with
    | None => Some (Dict.set plural_key (PList [x]) target)
    | Some (PList l) => Some (Dict.set plural_key (PList (l ++ [x])) target)
    | Some _ => None
    end
  else if Dict.mem k target then None
  else Some (Dict.set k x target).

Fixpoint merge_all (items : pydict) (target : pydict) : option pydict :=
  match items with
  | [] => Some target
  | kx :: items' =>
      match merge target kx with
      | Some target' => merge_all items' target'
      | None => None
      end
  end.








(** The builder never sees ["filters"] as the parent key. *)
Definition no_filters_parent (st : DictParser) : Prop :=
  parent_key st <> Some "filters".

End RoundTripSpec.

Section RoundTripVisitSpec.
Context {K : Keys} {R : Repr}.

(** The nodes [nodes] are visited, one by one and in any state of the
    visitor, to the one-entry mappings of [items], and leave the state as
    it is. *)
Definition visits_to (nodes : list node) (items : pydict) : Prop :=
  Forall2 (fun n kx => forall vst, accept n vst = (Ok (PDict [kx]), vst)) nodes items.


End RoundTripVisitSpec.

(** ** Further vocabulary: shapes, kinds and outcomes *)

Definition is_token_node (n : node) : bool :=
  match n with TokenNode _ => true | _ => false end.

Definition is_pair_node (n : node) : bool :=
  match n with PairNode _ _ => true | _ => false end.

(** A node as a container can hold it: a block whose body holds such nodes,
    a list whose items are all tokens or all pairs, or a pair. *)
Fixpoint container_item (n : node) : bool :=
  match n with
  | BlockNode _ _ _ _ body => forallb container_item body
  | ListNode _ _ items _ _ => forallb is_token_node items || forallb is_pair_node items
  | PairNode _ _ => true
  | TokenNode _ => false
  end.

(** The class [latest_node] is set to when a node has been emitted. *)
Definition kind_of (n : node) : latest :=
  match n with
  | BlockNode _ _ _ _ _ => LBlockNode
  | ListNode _ _ _ _ _ => LListNode
  | PairNode _ _ => LPairNode
  | TokenNode _ => LNone
  end.

(** A token without its formatting: plain, no prefix, no suffix. *)
Definition bare_token (t : SyntaxToken) : SyntaxToken :=
  Token Plain (value t) None None.

(** A tree without its formatting: bare tokens, no prefix on braces and
    brackets, no trailing comma. *)
Fixpoint bare (n : node) : node :=
  match n with
  | BlockNode type _ _ name body =>
      BlockNode (bare_token type) None None (option_map bare_token name) (map bare body)
  | ListNode type _ items _ _ =>
      ListNode (bare_token type) None (map bare items) None false
  | PairNode type val => PairNode (bare_token type) (bare_token val)
  | TokenNode t => TokenNode (bare_token t)
  end.

(** The exceptions the builder raises, and those the visitor raises. *)
Definition builder_exn (e : exn) : Prop :=
  e = UnsupportedValueType \/ e = AttributeError \/ e = ValueError.

Definition visitor_exn (e : exn) : Prop :=
  e = AttributeError \/ exists key, e = KeyConflict key.

(** Every exception of the computation [m] satisfies [P]. *)
Definition raises_only {S A} (P : exn -> Prop) (m : M S A) : Prop :=
  forall st e st', m st = (Raise e, st') -> P e.

(** From a depth of at least [lo] the computation [m] logs no warning and
    does not end below the depth it started at, whether it returns or
    raises. *)
Definition quiet_from {A} (lo : Z) (m : M DictVisitor A) : Prop :=
  forall st, (lo <= depth st)%Z ->
             warnings (snd (m st)) = warnings st /\ (depth st <= depth (snd (m st)))%Z.

(** A computation that, when it returns, leaves the field [proj] of the
    builder as it found it. *)
Definition keeps_field {A X} (proj : DictParser -> X) (m : M DictParser A) : Prop :=
  forall st a st', m st = (Ok a, st') -> proj st' = proj st.

(** The value of [latest_node] once [nodes] have been emitted one after
    the other: the kind of the last of them, or [before] when there is
    none. *)
Definition latest_after (nodes : list node) (before : latest) : latest :=
  fold_left (fun _ n => kind_of n) nodes before.

(** Truth value of the optional name given to [parse_block]. *)
Definition name_given (name : option pyval) : bool :=
  match name with Some n => truthy n | None => false end.

Section BuiltSpec.
Context {K : Keys}.

(** Every call of [parse_any] on [v] that returns has built nodes that a
    container can hold and has left [latest_node] at the kind of the last
    of them. *)
Definition builds_container_items (v : pyval) : Prop :=
  forall key st r v' st',
    parse_any key v st = (Ok (r, v'), st') ->
    forallb container_item (flatten [r]) = true /\
    latest_node st' = latest_after (flatten [r]) (latest_node st).

End BuiltSpec.

(** * Properties *)

(** ** Strings *)

Module PyStrFacts.
Import PyStr PyStrSpec.

Lemma append_assoc (a b c : string) : (a ++ b) ++ c = a ++ (b ++ c).
Proof. induction a as [|x a IH]; simpl; [reflexivity | now rewrite IH]. Qed.

(** The characters of a string make up the string. *)
Lemma join_chars (s : string) : join (chars s) = s.
Proof.
  induction s as [|c s IH]; [reflexivity|].
  cbn [chars]. destruct (chars s) as [|ch rest].
  - simpl in IH. subst s. reflexivity.
  - destruct (match s with String d _ => is_continuation d | "" => false end);
      simpl in *; now rewrite IH.
Qed.

Lemma join_app (a b : list string) : join (a ++ b) = join a ++ join b.
Proof.
  induction a as [|x a IH]; simpl; [reflexivity|].
  now rewrite IH, append_assoc.
Qed.

Section Drop.
Variable A : Type.
Variable p : A -> bool.

Lemma drop_left_split (l : list A) :
  exists a, l = (a ++ drop_left p l)%list /\ forallb p a = true /\
            not_by p (hd_error (drop_left p l)).
Proof.
  induction l as [|x l (a & Hl & Ha & Hf)]; simpl.
  - exists []; simpl; auto.
  - destruct (p x) eqn:Hx.
    + exists (x :: a); simpl. rewrite Hx, Ha, <- Hl. auto.
    + exists []; simpl; auto.
Qed.

Lemma drop_right_split (l : list A) :
  exists r, l = (drop_right p l ++ r)%list /\ forallb p r = true /\
            not_by p (last_item (drop_right p l)).
Proof.
  induction l as [|x l (r & Hl & Hr & Hlast)]; simpl.
  - exists []; simpl; auto.
  - destruct (drop_right p l) as [|y t] eqn:Ht.
    + destruct (p x) eqn:Hx.
      * exists (x :: r); simpl in *. subst l. rewrite Hx, Hr. auto.
      * exists r; simpl in *. subst l. auto.
    + exists r. simpl in *. rewrite <- Hl. repeat split; auto.
Qed.

Lemma last_item_drop_left (l : list A) :
  not_by p (last_item l) -> not_by p (last_item (drop_left p l)).
Proof.
  induction l as [|x l IH]; simpl; auto.
  destruct (p x) eqn:Hx; simpl; auto.
  destruct l as [|y l']; simpl in *; [congruence | auto].
Qed.

End Drop.

(** [strip] removes a run of whitespace characters at each end and nothing
    else, and what is left neither starts nor ends with one. *)
Lemma strip_split (s : string) :
  exists l core r,
    chars s = (l ++ core ++ r)%list /\ strip s = join core /\
    forallb is_space l = true /\ forallb is_space r = true /\
    not_by is_space (hd_error core) /\ not_by is_space (last_item core).
Proof.
  unfold strip.
  destruct (drop_right_split is_space (chars s)) as (r & Hs & Hr & Hlast).
  destruct (drop_left_split is_space (drop_right is_space (chars s)))
    as (l & Hs' & Hl & Hfirst).
  exists l, (drop_left is_space (drop_right is_space (chars s))), r.
  repeat split; auto.
  - rewrite app_assoc, <- Hs'. exact Hs.
  - now apply last_item_drop_left.
Qed.

End PyStrFacts.

(** ** The state monad *)

Section MonadFacts.
Context {S : Type}.

Lemma bind_ok {A B} (m : M S A) (k : A -> M S B) st b st' :
  bind m k st = (Ok b, st') ->
  exists a st1, m st = (Ok a, st1) /\ k a st1 = (Ok b, st').
Proof.
  unfold bind. destruct (m st) as [[a|e] st1]; intros H.
  - eauto.
  - discriminate.
Qed.

Lemma lift_ok {A} (r : result A) st a st' :
  @lift S A r st = (Ok a, st') -> r = Ok a /\ st' = st.
Proof. unfold lift. intros H; inversion H; auto. Qed.

End MonadFacts.

(** Splits a successful run of a sequence of binds into its steps. *)
Ltac inv_ok H :=
  match type of H with
  | bind _ _ _ = (Ok _, _) =>
      let a := fresh "a" in
      let st := fresh "st" in
      let H1 := fresh "Hstep" in
      apply bind_ok in H; destruct H as (a & st & H1 & H);
      try inv_ok H1; try inv_ok H
  | lift _ _ = (Ok _, _) =>
      let E := fresh "E" in
      apply lift_ok in H; destruct H as [E ->]
  | ret _ _ = (Ok _, _) =>
      unfold ret in H; inversion H; clear H; subst
  | (match ?x with (_, _) => _ end) _ = (Ok _, _) =>
      destruct x; try inv_ok H
  | _ => idtac
  end.

(** ** Builder: tokens, pairs and the fields they touch *)

Section BuilderFacts.
Context {K : Keys}.

Lemma parse_token_str (key s : string) (fq : bool) (pre suf : option string) :
  exists t, parse_token key (PStr s) fq pre suf = Ok t /\
            prefix t = pre /\ suffix t = suf.
Proof.
  unfold parse_token.
  destruct (fq || in_keys key QUOTED_LITERAL_KEYS);
    [|destruct (in_keys key EXPR_BLOCK_KEYS)]; eexists; split; try reflexivity; auto.
Qed.

Lemma parse_pair_eq (key : string) (v : pyval) (st : DictParser) :
  parse_pair key v st =
  match parse_token key v (pair_force_quote st) None None with
  | Ok t => (Ok (PairNode (type_token key (prefix_of st)) t),
             with_latest_node LPairNode st)
  | Raise e => (Raise e, st)
  end.
Proof.
  unfold parse_pair, bind, get_state, lift, pair_force_quote.
  destruct (parse_token key v _ None None); reflexivity.
Qed.

Lemma parse_pair_str (key s : string) (st : DictParser) :
  exists t, parse_token key (PStr s) (pair_force_quote st) None None = Ok t /\
            parse_pair key (PStr s) st =
            (Ok (PairNode (type_token key (prefix_of st)) t),
             with_latest_node LPairNode st).
Proof.
  destruct (parse_token_str key s (pair_force_quote st) None None) as (t & Ht & _).
  exists t. split; [exact Ht|]. now rewrite parse_pair_eq, Ht.
Qed.

Lemma keeps_level_ret {A} (a : A) : keeps_level (ret a).
Proof. intros st x st' H. inversion H; reflexivity. Qed.

Lemma keeps_level_raise {A} (e : exn) : keeps_level (@raise DictParser A e).
Proof. intros st x st' H. discriminate. Qed.

Lemma keeps_level_lift {A} (r : result A) : keeps_level (lift r).
Proof. intros st x st' H. inversion H; reflexivity. Qed.

Lemma keeps_level_bind {A B} (m : M DictParser A) (k : A -> M DictParser B) :
  keeps_level m -> (forall a, keeps_level (k a)) -> keeps_level (bind m k).
Proof.
  intros Hm Hk st b st' H. apply bind_ok in H. destruct H as (a & st1 & H1 & H2).
  rewrite (Hk _ _ _ _ H2). eapply Hm; eauto.
Qed.

Lemma keeps_level_get_state : keeps_level get_state.
Proof. intros st x st' H. inversion H; reflexivity. Qed.

Lemma keeps_level_set_parent_key k : keeps_level (set_parent_key k).
Proof. intros st x st' H. inversion H; reflexivity. Qed.

Lemma keeps_level_set_latest_node l : keeps_level (set_latest_node l).
Proof. intros st x st' H. inversion H; reflexivity. Qed.

Lemma keeps_level_is_plural_key key : keeps_level (is_plural_key key).
Proof.
  intros st x st' H. unfold is_plural_key in H.
  repeat match type of H with
         | (if ?c then _ else _) = _ => destruct c
         | (match ?c with Some _ => _ | None => _ end) = _ => destruct c
         end; inversion H; reflexivity.
Qed.

Lemma keeps_level_parse_pair key v : keeps_level (parse_pair key v).
Proof.
  intros st x st' H. rewrite parse_pair_eq in H.
  destruct (parse_token key v _ None None); inversion H; reflexivity.
Qed.

Lemma keeps_level_mapM {A B} (f : A -> M DictParser B) (xs : list A) :
  (forall x, keeps_level (f x)) -> keeps_level (mapM f xs).
Proof.
  intros Hf. induction xs as [|x xs IH]; simpl.
  - apply keeps_level_ret.
  - apply keeps_level_bind; [apply Hf|]. intros y.
    apply keeps_level_bind; [exact IH|]. intros ys. apply keeps_level_ret.
Qed.

(** [increase_level], a body that keeps the level, [decrease_level]. *)
Lemma keeps_level_bracket {A B} (body : M DictParser A) (k : A -> M DictParser B) :
  keeps_level body -> (forall a, keeps_level (k a)) ->
  keeps_level (increase_level ;;; x <- body ;; decrease_level ;;; k x).
Proof.
  intros Hb Hk st b st' H.
  apply bind_ok in H. destruct H as (u & st1 & H1 & H).
  apply bind_ok in H. destruct H as (a & st2 & H2 & H).
  apply bind_ok in H. destruct H as (u' & st3 & H3 & H).
  apply Hk in H. apply Hb in H2.
  inversion H1; subst st1. inversion H3; subst st3.
  simpl in *. lia.
Qed.

Lemma keeps_level_parse_list key values : keeps_level (parse_list key values).
Proof.
  unfold parse_list.
  apply keeps_level_bind; [apply keeps_level_set_parent_key|]. intros _.
  apply keeps_level_bind; [apply keeps_level_get_state|]. intros st0.
  destruct ((5 <=? Z.of_nat (length values))%Z || _).
  - apply keeps_level_bracket.
    + apply keeps_level_mapM. intros v.
      destruct (match values with [] => false | v0 :: _ => negb (is_str_or_int v0) end).
      * apply keeps_level_bind; [apply keeps_level_lift|]. intros [k x].
        apply keeps_level_parse_pair.
      * apply keeps_level_bind; [apply keeps_level_get_state|]. intros st1.
        apply keeps_level_bind; [apply keeps_level_lift|]. intros t.
        apply keeps_level_ret.
    + intros items.
      apply keeps_level_bind; [apply keeps_level_get_state|]. intros st1.
      apply keeps_level_bind; [apply keeps_level_set_latest_node|]. intros _.
      apply keeps_level_ret.
  - apply keeps_level_bind; [apply keeps_level_lift|]. intros items.
    apply keeps_level_bind; [apply keeps_level_set_latest_node|]. intros _.
    apply keeps_level_ret.
Qed.

Lemma keeps_level_parse_items rec skip (d : pydict) :
  Forall (fun kv => forall k, keeps_level (rec k (snd kv))) d ->
  keeps_level (parse_items rec skip d).
Proof.
  induction 1 as [|[k v] d Hv _ IH]; simpl.
  - apply keeps_level_ret.
  - destruct (skip k); [exact IH|].
    apply keeps_level_bind; [apply Hv|]. intros [r v'].
    apply keeps_level_bind; [exact IH|]. intros [rs d'']. apply keeps_level_ret.
Qed.

Lemma keeps_level_parse_values rec (vs : list pyval) :
  Forall (fun v => keeps_level (rec v)) vs ->
  keeps_level (parse_values rec vs).
Proof.
  induction 1 as [|v vs Hv _ IH]; simpl.
  - apply keeps_level_ret.
  - apply keeps_level_bind; [apply Hv|]. intros [r v'].
    apply keeps_level_bind; [exact IH|]. intros [rs d'']. apply keeps_level_ret.
Qed.

Lemma keeps_level_parse_block_around key name body :
  keeps_level body -> keeps_level (parse_block_around key name body).
Proof.
  intros Hb st b st' H. unfold parse_block_around in H.
  inv_ok H.
  match goal with E : body _ = _ |- _ => apply Hb in E end.
  unfold set_parent_key, get_state, increase_level, decrease_level,
    set_latest_node in *.
  repeat match goal with
         | E : (Ok _, _) = (Ok _, _) |- _ => inversion E; clear E; subst
         end.
  simpl in *. lia.
Qed.

(** Every call of [parse_any] that returns leaves the indent level as it
    found it. *)
Lemma keeps_level_parse_any (v : pyval) :
  forall key, keeps_level (parse_any key v).
Proof.
  induction v as [s|z|vs IH|d IH|] using pyval_ind'; intros key; simpl.
  - apply keeps_level_bind; [apply keeps_level_parse_pair|]. intros n.
    apply keeps_level_ret.
  - apply keeps_level_raise.
  - apply keeps_level_bind; [apply keeps_level_is_plural_key|]. intros [|].
    + apply keeps_level_bind.
      * apply keeps_level_parse_values.
        eapply Forall_impl; [|exact IH]. intros v Hv. apply Hv.
      * intros [nodes values']. apply keeps_level_ret.
    + apply keeps_level_bind; [apply keeps_level_parse_list|]. intros n.
      apply keeps_level_ret.
  - apply keeps_level_bind.
    + apply keeps_level_parse_block_around. apply keeps_level_parse_items.
      eapply Forall_impl; [|exact IH]. intros kv Hkv k. apply Hkv.
    + intros [n d']. apply keeps_level_ret.
  - apply keeps_level_raise.
Qed.

Lemma keeps_level_parse_block key items name :
  keeps_level (parse_block key items name).
Proof.
  apply keeps_level_parse_block_around, keeps_level_parse_items.
  apply Forall_forall. intros kv _ k. apply keeps_level_parse_any.
Qed.

End BuilderFacts.

(** ** Expression tokens *)

Section ExpressionTokens.
Context {K : Keys}.
Import PyStr PyStrSpec.

(** C6, as the code has it.  For a key of [EXPR_BLOCK_KEYS] that is not
    in [QUOTED_LITERAL_KEYS], and when quoting is not forced, the token
    built for the string [s] is an expression token holding [s] without
    the whitespace characters at its two ends, followed by one space.
    Whitespace is what [str.isspace] accepts, in the ASCII range and
    outside it.  The characters of [s] are [l ++ core ++ r] with [l] and
    [r] whitespace only and [core] neither starting nor ending with a
    whitespace character, and the value is [core] followed by a space.
    This holds for [parse_token] and for the pair [parse_pair] emits when
    the parent key is not ["filters"]. *)
Theorem expression_token_strips_both_ends
        (key s : string) (pre suf : option string) (st : DictParser) :
  in_keys key EXPR_BLOCK_KEYS = true ->
  in_keys key QUOTED_LITERAL_KEYS = false ->
  exists l core r,
    chars s = (l ++ core ++ r)%list /\
    s = join l ++ join core ++ join r /\
    forallb is_space l = true /\ forallb is_space r = true /\
    not_by is_space (hd_error core) /\ not_by is_space (last_item core) /\
    parse_token key (PStr s) false pre suf =
      Ok (Token Expression (PStr (join core ++ " ")) pre suf) /\
    (parent_key st <> Some "filters" ->
     parse_pair key (PStr s) st =
       (Ok (PairNode (type_token key (prefix_of st))
                     (Token Expression (PStr (join core ++ " ")) None None)),
        with_latest_node LPairNode st)).
Proof.
  intros He Hq.
  destruct (PyStrFacts.strip_split s) as (l & core & r & Hs & Hc & Hl & Hr & Hf & Hla).
  exists l, core, r.
  assert (Htok : forall p q, parse_token key (PStr s) false p q =
                             Ok (Token Expression (PStr (join core ++ " ")) p q)).
  { intros p q. unfold parse_token. simpl. now rewrite Hq, He, Hc. }
  repeat split; auto.
  - rewrite <- !PyStrFacts.join_app, <- Hs. symmetry. apply PyStrFacts.join_chars.
  - intros Hp. rewrite parse_pair_eq.
    assert (Hfq : pair_force_quote st = false).
    { unfold pair_force_quote. destruct (parent_key st) as [p|]; [|reflexivity].
      destruct (String.eqb_spec p "filters"); [subst; congruence | reflexivity]. }
    now rewrite Hfq, Htok.
Qed.

End ExpressionTokens.

Lemma expression_token_strips_both_ends_witness :
  let s := PyStr.of_bytes [194; 160; 32; 97; 32; 61; 32; 98; 226; 128; 131; 10]%N in
  exists l core r,
    PyStr.chars s = (l ++ core ++ r)%list /\
    s = PyStr.join l ++ PyStr.join core ++ PyStr.join r /\
    forallb PyStr.is_space l = true /\ forallb PyStr.is_space r = true /\
    PyStrSpec.not_by PyStr.is_space (hd_error core) /\
    PyStrSpec.not_by PyStr.is_space (PyStrSpec.last_item core) /\
    @parse_token Sample.keys "sql" (PStr s) false None None =
      Ok (Token Expression (PStr (PyStr.join core ++ " ")) None None) /\
    (parent_key init_parser <> Some "filters" ->
     @parse_pair Sample.keys "sql" (PStr s) init_parser =
       (Ok (PairNode (type_token "sql" (prefix_of init_parser))
                     (Token Expression (PStr (PyStr.join core ++ " ")) None None)),
        with_latest_node LPairNode init_parser)).
Proof.
  intros s.
  apply (@expression_token_strips_both_ends Sample.keys "sql" s
           None None init_parser); reflexivity.
Defined.

(** The token built from a string with a no-break space (U+00A0) and a
    space before it and an em space (U+2003) and a line feed after it. *)
Example expression_token_unicode_whitespace :
  @parse_token Sample.keys "sql"
    (PStr (PyStr.of_bytes [194; 160; 32; 97; 32; 61; 32; 98; 226; 128; 131; 10]%N))
    false None None =
  Ok (Token Expression (PStr "a = b ") None None).
Proof. reflexivity. Qed.

(** C6 as stated fails: the leading space of [" x"] is not kept (the claim
    gives [" x "], the code ["x "]), and under a forced quote no expression
    token is made at all. *)
Lemma expression_token_leading_space_dropped :
  @parse_token Sample.keys "sql" (PStr " x") false None None =
    Ok (Token Expression (PStr "x ") None None) /\
  PyStr.rstrip " x" ++ " " = " x " /\
  @parse_token Sample.keys "sql" (PStr " x") false None None <>
    Ok (Token Expression (PStr (PyStr.rstrip " x" ++ " ")) None None) /\
  in_keys "sql" (@EXPR_BLOCK_KEYS Sample.keys) = true /\
  @parse_pair Sample.keys "sql" (PStr " x") (with_parent_key "filters" init_parser) =
    (Ok (PairNode (type_token "sql" "") (Token Quoted (PStr " x") None None)),
     with_latest_node LPairNode (with_parent_key "filters" init_parser)).
Proof.
  repeat split; try reflexivity. vm_compute. discriminate.
Qed.

(** ** List layout *)

Section ListLayout.
Context {K : Keys}.
Import PyStr.

Lemma leave_level (st x : DictParser) (l : latest) :
  level x = level st + 1 -> parent_key x = parent_key st ->
  with_latest_node l (with_level (level x - 1) x) = with_latest_node l st.
Proof.
  intros Hl Hp. unfold with_latest_node, with_level; simpl.
  rewrite Hl, Hp. f_equal. lia.
Qed.

Lemma newline_indent_level (st st' : DictParser) :
  level st' = level st -> newline_indent st' = newline_indent st.
Proof. unfold newline_indent, indent. now intros ->. Qed.

Lemma parse_any_list_not_plural (key : string) (values : list pyval) (st : DictParser) :
  is_plural_key key st = (Ok false, st) ->
  parse_any key (PList values) st =
  (n <- parse_list key values ;; ret (One n, PList values)) st.
Proof. intros H. simpl. unfold bind at 1. now rewrite H. Qed.

(** The items of a pair-mode list of one-entry mappings. *)
Lemma pair_mode_items (kss : list (string * string)) (st : DictParser) :
  latest_node st = LNone \/ latest_node st = LPairNode ->
  exists items,
    mapM (fun v => '(k, x) <- lift (single_item v) ;; parse_pair k x)
         (map pair_item kss) st =
      (Ok items, match kss with [] => st | _ => with_latest_node LPairNode st end) /\
    Forall2 (fun ks item =>
               exists t, item = PairNode (type_token (fst ks) (newline_indent st)) t /\
                         parse_token (fst ks) (PStr (snd ks)) (pair_force_quote st)
                                     None None = Ok t)
            kss items.
Proof.
  revert st. induction kss as [|[k s] kss IH]; intros st Hl; simpl.
  - exists []. split; [reflexivity | constructor].
  - destruct (parse_pair_str k s st) as (t & Ht & Hrun).
    destruct (IH (with_latest_node LPairNode st)) as (items & Hrest & Hall);
      [right; reflexivity|].
    exists (PairNode (type_token k (newline_indent st)) t :: items). split.
    + unfold bind at 1. unfold bind at 1. unfold lift at 1. simpl single_item.
      cbv iota beta. rewrite Hrun.
      assert (Hpre : prefix_of st = newline_indent st).
      { unfold prefix_of. destruct Hl as [-> | ->]; reflexivity. }
      rewrite Hpre. unfold bind at 1. rewrite Hrest. unfold ret.
      destruct kss; reflexivity.
    + constructor; [exists t; auto|].
      eapply Forall2_impl; [|exact Hall]. intros ks item (t' & -> & Ht').
      exists t'. split; [reflexivity | exact Ht'].
Qed.

(** [parse_list], with its two layouts side by side. *)
Lemma parse_list_eq (key : string) (values : list pyval) (st : DictParser) :
  let fq := String.eqb key "suggestions" in
  let st1 := with_parent_key key st in
  let pair_mode := match values with
                   | v0 :: _ => negb (is_str_or_int v0)
                   | [] => false
                   end in
  parse_list key values st =
  if (5 <=? Z.of_nat (length values))%Z || pair_mode then
    match mapM (fun v =>
                  if pair_mode then
                    '(k, x) <- lift (single_item v) ;; parse_pair k x
                  else
                    st' <- get_state ;;
                    token <- lift (parse_token key v fq (Some (newline_indent st')) None) ;;
                    ret (TokenNode token)) values
               (with_latest_node LNone (with_level (level st1 + 1) st1)) with
    | (Ok items, st2) =>
        (Ok (ListNode (type_token key (prefix_of st1)) None items
                      (Some (newline_indent (with_level (level st2 - 1) st2))) true),
         with_latest_node LListNode (with_level (level st2 - 1) st2))
    | (Raise e, st2) => (Raise e, st2)
    end
  else
    match inline_items key fq 0 values with
    | Ok items =>
        (Ok (ListNode (type_token key (prefix_of st1)) None items None false),
         with_latest_node LListNode st1)
    | Raise e => (Raise e, st1)
    end.
Proof.
  intros fq st1 pair_mode. unfold parse_list.
  unfold bind at 1. unfold set_parent_key at 1. unfold bind at 1. unfold get_state at 1.
  fold st1. fold fq. fold pair_mode.
  destruct ((5 <=? Z.of_nat (length values))%Z || pair_mode).
  - unfold bind at 1. unfold increase_level at 1. unfold bind at 1.
    destruct (mapM _ values _) as [[items|e] st2]; reflexivity.
  - unfold bind at 1. unfold lift at 1.
    destruct (inline_items key fq 0 values); reflexivity.
Qed.

(** The items of the multiline layout, for any values whose tokens can be
    built. *)
Lemma multiline_items_run (key : string) (fq : bool) (st : DictParser)
      (vs : list pyval) (ts : list SyntaxToken) :
  Forall2 (fun v t => parse_token key v fq (Some (newline_indent st)) None = Ok t) vs ts ->
  mapM (fun v =>
          st' <- get_state ;;
          token <- lift (parse_token key v fq (Some (newline_indent st')) None) ;;
          ret (TokenNode token)) vs st = (Ok (map TokenNode ts), st).
Proof.
  induction 1 as [|v t vs ts Ht _ IH]; simpl; [reflexivity|].
  unfold bind at 1. unfold bind at 1. unfold get_state at 1. unfold bind at 1.
  unfold lift at 1. rewrite Ht. unfold ret at 1. unfold bind at 1.
  rewrite IH. reflexivity.
Qed.

(** The indentation written out: two spaces for each level. *)
Lemma indent_spaces (st : DictParser) :
  indent st = PyStrSpec.spaces (2 * Z.to_nat (level st)).
Proof.
  unfold indent. destruct (Z.ltb_spec 0 (level st)) as [Hpos|Hle].
  - generalize (Z.to_nat (level st)). intros n.
    induction n as [|n IH]; [reflexivity|].
    replace (2 * S n)%nat with (S (S (2 * n))) by lia.
    simpl repeat_str. rewrite IH. reflexivity.
  - replace (Z.to_nat (level st)) with 0%nat by lia. reflexivity.
Qed.

(** A token is made of every element that [takes_element] accepts. *)
Lemma parse_token_takes (key : string) (v : pyval) (pre suf : option string) :
  takes_element key v = true ->
  exists t, parse_token key v (String.eqb key "suggestions") pre suf = Ok t /\
            prefix t = pre /\ suffix t = suf.
Proof.
  unfold takes_element, parse_token. intros H.
  destruct (String.eqb key "suggestions"); simpl in *;
    [eexists; split; [reflexivity | auto]|].
  destruct (in_keys key QUOTED_LITERAL_KEYS); simpl in *;
    [eexists; split; [reflexivity | auto]|].
  destruct (in_keys key EXPR_BLOCK_KEYS); simpl in *;
    [|eexists; split; [reflexivity | auto]].
  destruct v; try discriminate. eexists; split; [reflexivity | auto].
Qed.

(** C5, as the code has it.  Under a key that is not plural, a list of
    four strings or integers, of each of which a token can be made, is
    laid out inline: no prefix on the first item, one space before each
    of the others, no prefix on the closing bracket, no trailing comma,
    indent level as before.  A list of five such elements is laid out
    over several lines: every item is prefixed by a newline and two
    spaces for each level up to that of the items, one more than the
    level of the list, the closing bracket by a newline and two spaces
    for each level of the list, with a trailing comma.  The items are the
    tokens [parse_token] makes of the elements.  A non-empty list of
    one-entry mappings of strings (pair mode) has the multiline layout
    and a trailing comma whatever its length, each pair on a line of its
    own; and whenever a list whose first element is neither a string nor
    an integer is built at all, it has that layout and trailing comma. *)
Theorem list_layout_threshold (key : string) (st : DictParser) :
  is_plural_key key st = (Ok false, st) ->
  let st1 := with_parent_key key st in
  let fq := String.eqb key "suggestions" in
  let inner := Some (nl ++ PyStrSpec.spaces (2 * Z.to_nat (level st + 1))) in
  let outer := Some (nl ++ PyStrSpec.spaces (2 * Z.to_nat (level st))) in
  (forall v1 v2 v3 v4,
      forallb is_str_or_int [v1; v2; v3; v4] = true ->
      forallb (takes_element key) [v1; v2; v3; v4] = true ->
      exists t1 t2 t3 t4,
        parse_token key v1 fq None None = Ok t1 /\
        parse_token key v2 fq (Some " ") None = Ok t2 /\
        parse_token key v3 fq (Some " ") None = Ok t3 /\
        parse_token key v4 fq (Some " ") None = Ok t4 /\
        map prefix [t1; t2; t3; t4] = [None; Some " "; Some " "; Some " "] /\
        parse_any key (PList [v1; v2; v3; v4]) st =
          (Ok (One (ListNode (type_token key (prefix_of st1)) None
                             [TokenNode t1; TokenNode t2; TokenNode t3; TokenNode t4]
                             None false),
               PList [v1; v2; v3; v4]),
           with_latest_node LListNode st1)) /\
  (forall v1 v2 v3 v4 v5,
      forallb is_str_or_int [v1; v2; v3; v4; v5] = true ->
      forallb (takes_element key) [v1; v2; v3; v4; v5] = true ->
      exists t1 t2 t3 t4 t5,
        parse_token key v1 fq inner None = Ok t1 /\
        parse_token key v2 fq inner None = Ok t2 /\
        parse_token key v3 fq inner None = Ok t3 /\
        parse_token key v4 fq inner None = Ok t4 /\
        parse_token key v5 fq inner None = Ok t5 /\
        map prefix [t1; t2; t3; t4; t5] = [inner; inner; inner; inner; inner] /\
        parse_any key (PList [v1; v2; v3; v4; v5]) st =
          (Ok (One (ListNode (type_token key (prefix_of st1)) None
                             [TokenNode t1; TokenNode t2; TokenNode t3; TokenNode t4;
                              TokenNode t5]
                             outer true),
               PList [v1; v2; v3; v4; v5]),
           with_latest_node LListNode st1)) /\
  (forall ks kss, exists items,
      Forall2 (fun ks item =>
                 exists t, item = PairNode (Token Plain (PStr (fst ks)) inner None) t /\
                           parse_token (fst ks) (PStr (snd ks))
                                       (String.eqb key "filters") None None = Ok t)
              (ks :: kss) items /\
      parse_any key (PList (map pair_item (ks :: kss))) st =
        (Ok (One (ListNode (type_token key (prefix_of st1)) None items outer true),
             PList (map pair_item (ks :: kss))),
         with_latest_node LListNode st1)) /\
  (forall v0 values r v' st',
      is_str_or_int v0 = false ->
      parse_any key (PList (v0 :: values)) st = (Ok (r, v'), st') ->
      exists items,
        r = One (ListNode (type_token key (prefix_of st1)) None items outer true) /\
        level st' = level st).
Proof.
  intros Hnp st1 fq inner outer.
  assert (Hinner : inner = Some (nl ++ indent (with_level (level st + 1) st))).
  { unfold inner. now rewrite indent_spaces. }
  assert (Houter : outer = Some (nl ++ indent st)).
  { unfold outer. now rewrite indent_spaces. }
  rewrite Houter. clearbody inner outer. subst inner. clear Houter outer.
  set (inner := Some (nl ++ indent (with_level (level st + 1) st))).
  split; [|split; [|split]].
  - intros v1 v2 v3 v4 Hs Ht. simpl in Hs, Ht.
    repeat (apply andb_true_iff in Ht; destruct Ht as [? Ht]).
    repeat (apply andb_true_iff in Hs; destruct Hs as [? Hs]).
    destruct (@parse_token_takes key v1 None None) as (t1 & E1 & Q1 & _); [assumption|].
    destruct (@parse_token_takes key v2 (Some " ") None) as (t2 & E2 & Q2 & _);
      [assumption|].
    destruct (@parse_token_takes key v3 (Some " ") None) as (t3 & E3 & Q3 & _);
      [assumption|].
    destruct (@parse_token_takes key v4 (Some " ") None) as (t4 & E4 & Q4 & _);
      [assumption|].
    fold fq in E1, E2, E3, E4.
    exists t1, t2, t3, t4. repeat (split; [assumption|]).
    split; [simpl; now rewrite Q1, Q2, Q3, Q4|].
    rewrite (parse_any_list_not_plural _ _ Hnp).
    unfold parse_list, bind, set_parent_key, get_state, lift, ret,
      set_latest_node; simpl.
    fold fq.
    match goal with Hv : is_str_or_int v1 = true |- _ => rewrite Hv end.
    simpl. rewrite E1, E2, E3, E4. reflexivity.
  - intros v1 v2 v3 v4 v5 Hs Ht. simpl in Hs, Ht.
    repeat (apply andb_true_iff in Ht; destruct Ht as [? Ht]).
    repeat (apply andb_true_iff in Hs; destruct Hs as [? Hs]).
    destruct (@parse_token_takes key v1 inner None) as (t1 & E1 & Q1 & _); [assumption|].
    destruct (@parse_token_takes key v2 inner None) as (t2 & E2 & Q2 & _); [assumption|].
    destruct (@parse_token_takes key v3 inner None) as (t3 & E3 & Q3 & _); [assumption|].
    destruct (@parse_token_takes key v4 inner None) as (t4 & E4 & Q4 & _); [assumption|].
    destruct (@parse_token_takes key v5 inner None) as (t5 & E5 & Q5 & _); [assumption|].
    fold fq in E1, E2, E3, E4, E5.
    exists t1, t2, t3, t4, t5. repeat (split; [assumption|]).
    split; [simpl; now rewrite Q1, Q2, Q3, Q4, Q5|].
    set (st2 := with_latest_node LNone (with_level (level st1 + 1) st1)).
    assert (Hrun := @multiline_items_run key fq st2 [v1; v2; v3; v4; v5]
                      [t1; t2; t3; t4; t5]).
    rewrite (parse_any_list_not_plural _ _ Hnp).
    unfold bind at 1. unfold parse_list.
    unfold bind at 1. unfold set_parent_key at 1.
    unfold bind at 1. unfold get_state at 1.
    change ((5 <=? Z.of_nat (length [v1; v2; v3; v4; v5]))%Z
            || negb (is_str_or_int v1)) with true.
    cbv iota. unfold bind at 1. unfold increase_level at 1.
    unfold bind at 1. fold st1. fold st2.
    match goal with Hv : is_str_or_int v1 = true |- _ => rewrite Hv end.
    simpl negb. cbv iota. fold fq.
    rewrite Hrun by (repeat constructor; assumption).
    unfold bind, decrease_level, get_state, set_latest_node, ret.
    rewrite (@leave_level st1) by reflexivity.
    rewrite (@newline_indent_level st _) by (simpl; lia).
    reflexivity.
  - intros ks kss.
    set (st2 := with_latest_node LNone (with_level (level st1 + 1) st1)).
    destruct (@pair_mode_items (ks :: kss) st2) as (items & Hrun & Hall);
      [left; reflexivity|].
    exists items. split; [exact Hall|].
    rewrite (parse_any_list_not_plural _ _ Hnp).
    unfold bind at 1. unfold parse_list.
    unfold bind at 1. unfold set_parent_key at 1.
    unfold bind at 1. unfold get_state at 1.
    fold st1.
    change (match map pair_item (ks :: kss) with
            | [] => false
            | v0 :: _ => negb (is_str_or_int v0)
            end) with true.
    rewrite orb_true_r. cbv iota.
    unfold bind at 1. unfold increase_level at 1. fold st2.
    unfold bind at 1. rewrite Hrun.
    unfold bind, decrease_level, get_state, set_latest_node, ret.
    rewrite (@leave_level st1) by reflexivity.
    rewrite (@newline_indent_level st _) by (simpl; lia).
    reflexivity.
  - intros v0 values r v' st' Hv H.
    rewrite (parse_any_list_not_plural _ _ Hnp) in H.
    apply bind_ok in H. destruct H as (n & st2 & Hlist & H).
    inversion H; subst. clear H.
    rewrite parse_list_eq in Hlist. cbv zeta in Hlist.
    rewrite Hv, orb_true_r in Hlist. simpl negb in Hlist. cbv iota in Hlist.
    fold st1 in Hlist.
    destruct (mapM _ (v0 :: values) _) as [[items|e] st3] eqn:Hrun; [|discriminate].
    assert (Hl : level st3 = level st + 1).
    { apply keeps_level_mapM in Hrun; [exact Hrun|].
      intros v. apply keeps_level_bind; [apply keeps_level_lift|]. intros [k x].
      apply keeps_level_parse_pair. }
    inversion Hlist; subst. exists items. split.
    + rewrite (@newline_indent_level st _) by (simpl; lia). reflexivity.
    + simpl. lia.
Qed.

End ListLayout.

Lemma list_layout_threshold_witness :
  @is_plural_key Sample.keys "fields" init_parser = (Ok false, init_parser) /\
  exists t1 t2 t3 t4 t5,
    @parse_token Sample.keys "fields" (PStr "a") false (Some (PyStr.nl ++ "  ")) None =
      Ok t1 /\
    @parse_token Sample.keys "fields" (PStr "b") false (Some (PyStr.nl ++ "  ")) None =
      Ok t2 /\
    @parse_token Sample.keys "fields" (PStr "c") false (Some (PyStr.nl ++ "  ")) None =
      Ok t3 /\
    @parse_token Sample.keys "fields" (PInt 4) false (Some (PyStr.nl ++ "  ")) None =
      Ok t4 /\
    @parse_token Sample.keys "fields" (PStr "e") false (Some (PyStr.nl ++ "  ")) None =
      Ok t5 /\
    map prefix [t1; t2; t3; t4; t5] =
      [Some (PyStr.nl ++ "  "); Some (PyStr.nl ++ "  "); Some (PyStr.nl ++ "  ");
       Some (PyStr.nl ++ "  "); Some (PyStr.nl ++ "  ")] /\
    @parse_any Sample.keys "fields"
               (PList [PStr "a"; PStr "b"; PStr "c"; PInt 4; PStr "e"]) init_parser =
    (Ok (One (ListNode (type_token "fields" "") None
                       [TokenNode t1; TokenNode t2; TokenNode t3; TokenNode t4;
                        TokenNode t5]
                       (Some PyStr.nl) true),
         PList [PStr "a"; PStr "b"; PStr "c"; PInt 4; PStr "e"]),
     with_latest_node LListNode (with_parent_key "fields" init_parser)).
Proof.
  split; [reflexivity|].
  exact (proj1 (proj2 (@list_layout_threshold Sample.keys "fields" init_parser eq_refl))
               (PStr "a") (PStr "b") (PStr "c") (PInt 4) (PStr "e") eq_refl eq_refl).
Defined.

(** The two layouts at a list of four and a list of five strings. *)
Example list_layout_of_four_and_five :
  @parse_any Sample.keys "fields" (PList [PStr "a"; PStr "b"; PStr "c"; PStr "d"])
             init_parser =
    (Ok (One (ListNode (type_token "fields" "") None
                       [TokenNode (Token Plain (PStr "a") None None);
                        TokenNode (Token Plain (PStr "b") (Some " ") None);
                        TokenNode (Token Plain (PStr "c") (Some " ") None);
                        TokenNode (Token Plain (PStr "d") (Some " ") None)]
                       None false),
         PList [PStr "a"; PStr "b"; PStr "c"; PStr "d"]),
     with_latest_node LListNode (with_parent_key "fields" init_parser)) /\
  fst (@parse_any Sample.keys "fields"
         (PList [PStr "a"; PStr "b"; PStr "c"; PStr "d"; PStr "e"])
         (with_level 1 init_parser)) =
    Ok (One (ListNode (type_token "fields" "") None
                      [TokenNode (Token Plain (PStr "a") (Some (PyStr.nl ++ "    ")) None);
                       TokenNode (Token Plain (PStr "b") (Some (PyStr.nl ++ "    ")) None);
                       TokenNode (Token Plain (PStr "c") (Some (PyStr.nl ++ "    ")) None);
                       TokenNode (Token Plain (PStr "d") (Some (PyStr.nl ++ "    ")) None);
                       TokenNode (Token Plain (PStr "e") (Some (PyStr.nl ++ "    ")) None)]
                      (Some (PyStr.nl ++ "  ")) true),
        PList [PStr "a"; PStr "b"; PStr "c"; PStr "d"; PStr "e"]).
Proof. split; reflexivity. Qed.

(** C5 as stated fails: [sql] is not a plural key and the four elements
    are strings and an integer, yet no list node is built.  The integer
    has no [strip], which [parse_token] calls under an expression key:
    the builder raises [AttributeError]. *)
Lemma scalar_list_under_expression_key_raises :
  @is_plural_key Sample.keys "sql" init_parser = (Ok false, init_parser) /\
  forallb is_str_or_int [PStr "a"; PStr "b"; PStr "c"; PInt 4] = true /\
  @parse_any Sample.keys "sql" (PList [PStr "a"; PStr "b"; PStr "c"; PInt 4])
             init_parser =
    (Raise AttributeError, with_parent_key "sql" init_parser) /\
  fst (@parse Sample.keys [("sql", PList [PStr "a"; PStr "b"; PStr "c"; PInt 4])]
              init_parser) = Raise AttributeError.
Proof. repeat split; reflexivity. Qed.

(** ** Blocks: prefix, level and parent key *)

Section Blocks.
Context {K : Keys}.
Import PyStr.

(** The state in which [parse_block] builds its node, after the body. *)
Lemma parse_block_around_ok key name body st n items' st' :
  keeps_level body ->
  parse_block_around key name body st = (Ok (n, items'), st') ->
  exists nodes st2,
    body (with_latest_node LNone (with_level (level st + 1) (with_parent_key key st)))
      = (Ok (nodes, items'), st2) /\
    st' = with_latest_node LBlockNode (with_level (level st) st2) /\
    exists lb rb nm,
      n = BlockNode
            (type_token key
               (if latest_truthy (latest_node st)
                   && negb (latest_eqb (latest_node st) LDocumentNode)
                then nl ++ nl ++ indent st
                else prefix_of st))
            lb rb nm (flatten nodes).
Proof.
  intros Hb H. unfold parse_block_around in H. inv_ok H.
  unfold set_parent_key, get_state, increase_level, decrease_level,
    set_latest_node in *.
  repeat match goal with
         | E : (Ok _, _) = (Ok _, _) |- _ => inversion E; clear E; subst
         end.
  match goal with E : body _ = (Ok (?l, _), ?s) |- _ =>
    exists l, s; pose proof (Hb _ _ _ E) as Hl end.
  simpl in Hl.
  split; [assumption|]. split.
  - unfold with_latest_node, with_level; simpl. f_equal. lia.
  - do 3 eexists. simpl latest_node.
    match goal with |- BlockNode (type_token _ ?p) _ _ _ _ =
                       BlockNode (type_token _ ?q) _ _ _ _ =>
      replace q with p; [reflexivity|] end.
    unfold prefix_of, newline_indent, indent; simpl.
    replace (level _ - 1) with (level st) by lia. reflexivity.
Qed.

(** C7, as the code has it.  The type token of a block is prefixed by the
    empty string at the start of the document, by a newline and the
    indent when the block is the first item of a container just opened,
    and by a blank line, a newline and the indent after any sibling,
    be it a block, a list or a pair. *)
Theorem block_prefix_after_any_sibling key items name st n items' st' :
  parse_block key items name st = (Ok (n, items'), st') ->
  exists lb rb nm body,
    n = BlockNode
          (type_token key
             (match latest_node st with
              | LDocumentNode => ""
              | LNone => nl ++ indent st
              | LBlockNode | LListNode | LPairNode => nl ++ nl ++ indent st
              end))
          lb rb nm body.
Proof.
  intros H. apply parse_block_around_ok in H.
  - destruct H as (nodes & st2 & _ & _ & lb & rb & nm & ->).
    exists lb, rb, nm, (flatten nodes).
    unfold prefix_of, newline_indent. destruct (latest_node st); reflexivity.
  - apply keeps_level_parse_items. apply Forall_forall. intros kv _ k.
    apply keeps_level_parse_any.
Qed.

(** String-valued entries become pairs; they touch neither [parent_key]
    nor [level], and the entries are left as they were. *)
Lemma parse_items_strings (d : pydict) (st : DictParser) :
  Forall (fun kv => exists s, snd kv = PStr s) d ->
  exists rs st',
    parse_items parse_any (fun _ => false) d st = (Ok (rs, d), st') /\
    parent_key st' = parent_key st /\ level st' = level st.
Proof.
  intros Hd. revert st. induction Hd as [|[k v] d (s & Hs) _ IH]; intros st; simpl.
  - do 2 eexists. split; [reflexivity | auto].
  - simpl in Hs. subst v.
    destruct (parse_pair_str k s st) as (t & _ & Hrun).
    destruct (IH (with_latest_node LPairNode st)) as (rs & st' & Hrest & Hp & Hl).
    do 2 eexists. split.
    + simpl. unfold bind at 1. unfold bind at 1. rewrite Hrun.
      unfold ret at 1. unfold bind at 1. rewrite Hrest. reflexivity.
    + auto.
Qed.

(** C2, on the code.  A call of [parse_block] that returns leaves [level]
    as it found it and [latest_node] at [BlockNode], but [parent_key] is
    not put back: when the body holds strings only it is left at the key
    of the block, whatever it was before the call. *)
Theorem parse_block_leaves_parent_key key items name st r st' :
  parse_block key items name st = (Ok r, st') ->
  level st' = level st /\
  latest_node st' = LBlockNode /\
  (Forall (fun kv => exists s, snd kv = PStr s) items -> parent_key st' = Some key).
Proof.
  intros H. split; [eapply keeps_level_parse_block; eassumption|].
  destruct r as [n items'].
  apply parse_block_around_ok in H.
  - destruct H as (nodes & st2 & Hbody & -> & _). split; [reflexivity|].
    intros Hflat.
    destruct (parse_items_strings
                (with_latest_node LNone
                   (with_level (level st + 1) (with_parent_key key st))) Hflat)
      as (rs & st3 & Hrun & Hp & _).
    rewrite Hrun in Hbody. inversion Hbody; subst. simpl. exact Hp.
  - apply keeps_level_parse_items. apply Forall_forall. intros kv _ k.
    apply keeps_level_parse_any.
Qed.

End Blocks.

Lemma block_prefix_after_any_sibling_witness :
  exists lb rb nm body,
    BlockNode (type_token "dimension" (PyStr.nl ++ PyStr.nl ++ "  ")) (Some " ")
              (Some "") (Some (Token Plain (PStr "id") None None)) [] =
    BlockNode (type_token "dimension" (PyStr.nl ++ PyStr.nl ++ "  ")) lb rb nm body.
Proof.
  exact (@block_prefix_after_any_sibling Sample.keys "dimension" []
           (Some (PStr "id")) (Parser (Some "view") 1 LPairNode)
           _ _ _ eq_refl).
Defined.

(** C7 as stated fails: a block that follows a pair is separated from it by
    a blank line, not by a single newline. *)
Lemma block_after_pair_gets_blank_line :
  fst (@parse Sample.keys [("label", PStr "x"); ("dimension", PDict [])] init_parser) =
    Ok (Document
          [PairNode (type_token "label" "") (Token Quoted (PStr "x") None None);
           BlockNode (type_token "dimension" (PyStr.nl ++ PyStr.nl)) (Some "")
                     (Some "") None []],
        [("label", PStr "x"); ("dimension", PDict [])]) /\
  PyStr.nl ++ PyStr.nl <> PyStr.nl ++ indent (with_latest_node LPairNode init_parser).
Proof. split; [reflexivity | discriminate]. Qed.

Lemma parse_block_leaves_parent_key_witness :
  level (with_latest_node LBlockNode (with_parent_key "dimension" init_parser)) =
    level init_parser /\
  latest_node (with_latest_node LBlockNode (with_parent_key "dimension" init_parser)) =
    LBlockNode /\
  (Forall (fun kv : string * pyval => exists s, snd kv = PStr s) [("type", PStr "string")] ->
   parent_key (with_latest_node LBlockNode (with_parent_key "dimension" init_parser)) =
     Some "dimension").
Proof.
  exact (@parse_block_leaves_parent_key Sample.keys "dimension"
           [("type", PStr "string")] None init_parser _ _ eq_refl).
Defined.

(** ** The parent key seen by later siblings *)

Section StaleParentKey.
Context {K : Keys}.

(** C3, on the code.  The two mappings differ only in the order of the
    two entries of the block: the pair [type: count] is quoted when it
    follows the [filters] block and is not when it precedes it.  The
    parent key that [parse_pair] reads is the one the [filters] block
    left behind. *)
Theorem sibling_order_changes_quoting :
  in_keys "type" QUOTED_LITERAL_KEYS = false ->
  let filters := ("filters", PDict [("field", PStr "value")]) in
  let type := ("type", PStr "count") in
  exists doc1 doc2 st1 st2,
    parse [("measure", PDict [filters; type])] init_parser =
      (Ok (doc1, [("measure", PDict [filters; type])]), st1) /\
    parse [("measure", PDict [type; filters])] init_parser =
      (Ok (doc2, [("measure", PDict [type; filters])]), st2) /\
    pair_class ["measure"; "type"] (doc_container doc1) = Some Quoted /\
    pair_class ["measure"; "type"] (doc_container doc2) <> Some Quoted.
Proof.
  intros Hq filters type.
  unfold parse, filters, type. simpl parse_items.
  change (Dict.mem "name" [("filters", PDict [("field", PStr "value")]);
                           ("type", PStr "count")]) with false.
  change (Dict.mem "name" [("type", PStr "count");
                           ("filters", PDict [("field", PStr "value")])]) with false.
  change (Dict.mem "name" [("field", PStr "value")]) with false.
  rewrite !orb_true_r. simpl negb. cbv iota. simpl andb.
  unfold parse_block_around, parse_pair, parse_token, bind, ret, lift, get_state,
    set_parent_key, set_latest_node, increase_level, decrease_level; simpl.
  rewrite Hq.
  destruct (in_keys "type" EXPR_BLOCK_KEYS); simpl;
    do 4 eexists; (split; [reflexivity|]); (split; [reflexivity|]);
    simpl; split; [reflexivity | discriminate | reflexivity | discriminate].
Qed.

(** Entries of the top level that hold strings leave [parent_key] at
    [None]; a list that follows under a key whose singular is
    [allowed_value] then fails in [is_plural_key]. *)
Lemma allowed_values_after_strings key (pre rest : pydict) (vs : list pyval) st :
  in_keys "allowed_value" PLURAL_KEYS = true ->
  singularize key = "allowed_value" ->
  Forall (fun kv => exists s, snd kv = PStr s) pre ->
  parent_key st = None ->
  exists st',
    parse_items parse_any (fun _ => false) ((pre ++ (key, PList vs) :: rest)%list) st =
      (Raise AttributeError, st') /\
    parent_key st' = None.
Proof.
  intros Hpl Hsing Hpre. revert st.
  induction Hpre as [|[k v] pre (s & Hs) _ IH]; intros st Hp; simpl.
  - exists st. split; [|exact Hp].
    unfold bind at 1. unfold bind at 1. unfold bind at 1.
    unfold is_plural_key. rewrite Hsing, Hpl, Hp. reflexivity.
  - simpl in Hs. subst v.
    destruct (parse_pair_str k s st) as (t & _ & Hrun).
    destruct (IH (with_latest_node LPairNode st) Hp) as (st' & Hrest & Hp').
    exists st'. split; [|exact Hp'].
    simpl. unfold bind at 1. unfold bind at 1. rewrite Hrun.
    unfold ret at 1. unfold bind at 1. rewrite Hrest. reflexivity.
Qed.

(** C9, as the code has it.  With [allowed_value] a repeatable key and
    [key] a key whose singular is [allowed_value]: classifying a list
    under [key] while [parent_key] is still [None] raises
    [AttributeError], and so does [parse] on every mapping in which the
    entries before that list all hold strings. *)
Theorem allowed_values_before_any_parent key (vs : list pyval) :
  in_keys "allowed_value" PLURAL_KEYS = true ->
  singularize key = "allowed_value" ->
  (forall st, parent_key st = None ->
              parse_any key (PList vs) st = (Raise AttributeError, st)) /\
  (forall pre rest,
      Forall (fun kv => exists s, snd kv = PStr s) pre ->
      exists st',
        parse ((pre ++ (key, PList vs) :: rest)%list) init_parser =
          (Raise AttributeError, st') /\
        parent_key st' = None).
Proof.
  intros Hpl Hsing. split.
  - intros st Hp. simpl. unfold bind at 1.
    unfold is_plural_key. rewrite Hsing, Hpl, Hp. reflexivity.
  - intros pre rest Hpre.
    destruct (@allowed_values_after_strings key pre rest vs init_parser
                Hpl Hsing Hpre eq_refl) as (st' & Hrun & Hp).
    exists st'. split; [|exact Hp].
    unfold parse, bind. rewrite Hrun. reflexivity.
Qed.

End StaleParentKey.

Lemma sibling_order_changes_quoting_witness :
  exists doc1 doc2 st1 st2,
    @parse Sample.keys
      [("measure", PDict [("filters", PDict [("field", PStr "value")]);
                          ("type", PStr "count")])] init_parser =
      (Ok (doc1, [("measure", PDict [("filters", PDict [("field", PStr "value")]);
                                     ("type", PStr "count")])]), st1) /\
    @parse Sample.keys
      [("measure", PDict [("type", PStr "count");
                          ("filters", PDict [("field", PStr "value")])])] init_parser =
      (Ok (doc2, [("measure", PDict [("type", PStr "count");
                                     ("filters", PDict [("field", PStr "value")])])]), st2) /\
    pair_class ["measure"; "type"] (doc_container doc1) = Some Quoted /\
    pair_class ["measure"; "type"] (doc_container doc2) <> Some Quoted.
Proof.
  exact (@sibling_order_changes_quoting Sample.keys eq_refl).
Defined.

Lemma allowed_values_before_any_parent_witness :
  exists st',
    @parse Sample.keys
      (([("label", PStr "x")] ++ ("allowed_values", PList [PStr "a"]) :: [])%list)
      init_parser = (Raise AttributeError, st') /\
    parent_key st' = None.
Proof.
  refine (proj2 (@allowed_values_before_any_parent Sample.keys "allowed_values"
                   [PStr "a"] eq_refl eq_refl) [("label", PStr "x")] [] _).
  repeat constructor. exists "x". reflexivity.
Defined.

(** C9 as stated fails: the mapping holds a list under [allowed_values]
    at its top level, and [parse] raises the [TypeError] of the entry
    before it, not an [AttributeError]. *)
Lemma allowed_values_after_unsupported_value :
  in_keys "allowed_value" (@PLURAL_KEYS Sample.keys) = true /\
  @singularize Sample.keys "allowed_values" = "allowed_value" /\
  @parse Sample.keys
    [("hidden", PNone); ("allowed_values", PList [PStr "x"])] init_parser =
    (Raise UnsupportedValueType, init_parser) /\
  fst (@parse Sample.keys
         [("hidden", PNone); ("allowed_values", PList [PStr "x"])] init_parser) <>
    Raise AttributeError.
Proof. repeat split; try reflexivity. discriminate. Qed.

(** ** Visitor: depth and conflicts *)

Section VisitorFacts.
Context {K : Keys} {R : Repr}.

Lemma keeps_depth_ret {A} (a : A) : keeps_depth (ret a).
Proof. intros st x st' H. inversion H; reflexivity. Qed.

Lemma keeps_depth_bind {A B} (m : M DictVisitor A) (k : A -> M DictVisitor B) :
  keeps_depth m -> (forall a, keeps_depth (k a)) -> keeps_depth (bind m k).
Proof.
  intros Hm Hk st b st' H. apply bind_ok in H. destruct H as (a & st1 & H1 & H2).
  rewrite (Hk _ _ _ _ H2). eapply Hm; eauto.
Qed.

Lemma keeps_depth_update_tree target update : keeps_depth (update_tree target update).
Proof.
  intros st a st' H. unfold update_tree in H.
  destruct update as [| |?|[|[key x] [|? ?]]|]; try discriminate.
  destruct (in_keys key PLURAL_KEYS).
  - destruct (Dict.mem _ target).
    + destruct (Dict.get _ target) as [[]|]; inversion H; reflexivity.
    + inversion H; reflexivity.
  - destruct (Dict.mem key target); [|inversion H; reflexivity].
    unfold bind, get_depth in H. destruct (depth st =? 0)%Z; inversion H.
    reflexivity.
Qed.

Lemma keeps_depth_mapM {A B} (f : A -> M DictVisitor B) (xs : list A) :
  Forall (fun x => keeps_depth (f x)) xs -> keeps_depth (mapM f xs).
Proof.
  induction 1 as [|x xs Hx _ IH]; simpl.
  - apply keeps_depth_ret.
  - apply keeps_depth_bind; [exact Hx|]. intros y.
    apply keeps_depth_bind; [exact IH|]. intros ys. apply keeps_depth_ret.
Qed.

Lemma keeps_depth_visit_items rec (items : list node) :
  Forall (fun n => keeps_depth (rec n)) items ->
  forall c, keeps_depth (visit_items rec items c).
Proof.
  induction 1 as [|n items Hn _ IH]; intros c; simpl.
  - apply keeps_depth_ret.
  - apply keeps_depth_bind; [exact Hn|]. intros u.
    apply keeps_depth_bind; [apply keeps_depth_update_tree|]. intros c'. apply IH.
Qed.

(** [depth += 1], a loop that keeps the depth, [depth -= 1]. *)
Lemma keeps_depth_visit_container_with rec (items : list node) :
  Forall (fun n => keeps_depth (rec n)) items ->
  keeps_depth (visit_container_with rec items).
Proof.
  intros Hrec st r st' H. unfold visit_container_with in H.
  destruct items as [|n items]; [inversion H; reflexivity|].
  cbv beta iota in H.
  apply bind_ok in H. destruct H as (u & st1 & H1 & H).
  apply bind_ok in H. destruct H as (c & st2 & H2 & H).
  apply bind_ok in H. destruct H as (u' & st3 & H3 & H).
  apply (keeps_depth_visit_items rec Hrec) in H2.
  unfold ret in H.
  unfold add_depth in *.
  repeat match goal with
         | E : (Ok _, _) = (Ok _, _) |- _ => inversion E; clear E; subst
         end.
  simpl in *. lia.
Qed.

Lemma keeps_depth_accept (n : node) : keeps_depth (accept n).
Proof.
  induction n as [ty lb rb nm c IH|ty lb items rb tc IH|ty v|t] using node_ind'; simpl.
  - apply keeps_depth_bind; [|intros d; apply keeps_depth_ret].
    apply keeps_depth_visit_container_with, IH.
  - apply keeps_depth_bind; [|intros vs; apply keeps_depth_ret].
    apply keeps_depth_mapM, IH.
  - apply keeps_depth_ret.
  - apply keeps_depth_ret.
Qed.

Lemma keeps_depth_visit_container (items : ContainerNode) :
  keeps_depth (visit_container items).
Proof.
  apply keeps_depth_visit_container_with, Forall_forall.
  intros n _. apply keeps_depth_accept.
Qed.

Lemma depth_only_ret {A} (a : A) : depth_only (ret a).
Proof. intros st1 st2 H. simpl. auto. Qed.

Lemma depth_only_raise {A} e : depth_only (@raise DictVisitor A e).
Proof. intros st1 st2 H. simpl. auto. Qed.

Lemma depth_only_bind {A B} (m : M DictVisitor A) (k : A -> M DictVisitor B) :
  depth_only m -> (forall a, depth_only (k a)) -> depth_only (bind m k).
Proof.
  intros Hm Hk st1 st2 H. unfold bind.
  destruct (Hm st1 st2 H) as [Hr Hd].
  destruct (m st1) as [[a1|e1] s1], (m st2) as [[a2|e2] s2]; simpl in *;
    try discriminate.
  - inversion Hr; subst. apply Hk, Hd.
  - inversion Hr; subst. auto.
Qed.

Lemma depth_only_add_depth d : depth_only (add_depth d).
Proof. intros st1 st2 H. simpl. split; [reflexivity | lia]. Qed.

Lemma depth_only_update_tree target update : depth_only (update_tree target update).
Proof.
  unfold update_tree.
  destruct update as [| |?|[|[key x] [|? ?]]|]; try apply depth_only_raise.
  destruct (in_keys key PLURAL_KEYS).
  - destruct (Dict.mem _ target).
    + destruct (Dict.get _ target) as [[]|];
        first [apply depth_only_ret | apply depth_only_raise].
    + apply depth_only_ret.
  - destruct (Dict.mem key target); [|apply depth_only_ret].
    intros st1 st2 H. unfold bind, get_depth. rewrite H.
    destruct (depth st2 =? 0)%Z; simpl; auto.
Qed.

Lemma depth_only_mapM {A B} (f : A -> M DictVisitor B) (xs : list A) :
  Forall (fun x => depth_only (f x)) xs -> depth_only (mapM f xs).
Proof.
  induction 1 as [|x xs Hx _ IH]; simpl.
  - apply depth_only_ret.
  - apply depth_only_bind; [exact Hx|]. intros y.
    apply depth_only_bind; [exact IH|]. intros ys. apply depth_only_ret.
Qed.

Lemma depth_only_visit_items rec (items : list node) :
  Forall (fun n => depth_only (rec n)) items ->
  forall c, depth_only (visit_items rec items c).
Proof.
  induction 1 as [|n items Hn _ IH]; intros c; simpl.
  - apply depth_only_ret.
  - apply depth_only_bind; [exact Hn|]. intros u.
    apply depth_only_bind; [apply depth_only_update_tree|]. intros c'. apply IH.
Qed.

Lemma depth_only_visit_container_with rec (items : list node) :
  Forall (fun n => depth_only (rec n)) items ->
  depth_only (visit_container_with rec items).
Proof.
  intros Hrec. unfold visit_container_with.
  destruct items as [|n items]; [apply depth_only_ret|].
  apply depth_only_bind; [apply depth_only_add_depth|]. intros _.
  apply depth_only_bind; [apply depth_only_visit_items, Hrec|]. intros c.
  apply depth_only_bind; [apply depth_only_add_depth|]. intros _.
  apply depth_only_ret.
Qed.

Lemma depth_only_accept (n : node) : depth_only (accept n).
Proof.
  induction n as [ty lb rb nm c IH|ty lb items rb tc IH|ty v|t] using node_ind'; simpl.
  - apply depth_only_bind; [|intros d; apply depth_only_ret].
    apply depth_only_visit_container_with, IH.
  - apply depth_only_bind; [|intros vs; apply depth_only_ret].
    apply depth_only_mapM, IH.
  - apply depth_only_ret.
  - apply depth_only_ret.
Qed.

(** C10, as the code has it.  A call of [visit_container] that returns
    leaves [depth] as it found it; so after a [visit] that returns, on a
    fresh visitor, [depth] is [-1] again and a further [visit] on the same
    visitor has the outcome it has on a fresh one. *)
Theorem depth_restored_on_return :
  (forall items st r st',
      visit_container items st = (Ok r, st') -> depth st' = depth st) /\
  (forall doc r st',
      visit doc init_visitor = (Ok r, st') ->
      depth st' = -1 /\
      forall doc2, fst (visit doc2 st') = fst (visit doc2 init_visitor)).
Proof.
  split.
  - intros items st r st' H. eapply keeps_depth_visit_container; eassumption.
  - intros doc r st' H.
    assert (Hd : depth st' = -1).
    { change (-1) with (depth init_visitor).
      eapply keeps_depth_visit_container; eassumption. }
    split; [exact Hd|]. intros doc2.
    apply (depth_only_visit_container_with accept); [|exact Hd].
    apply Forall_forall. intros n _. apply depth_only_accept.
Qed.

Lemma visit_items_app rec (pre rest : list node) c st c1 st1 :
  visit_items rec pre c st = (Ok c1, st1) ->
  visit_items rec (pre ++ rest)%list c st = visit_items rec rest c1 st1.
Proof.
  revert c st. induction pre as [|n pre IH]; intros c st H; simpl in *.
  - inversion H; reflexivity.
  - apply bind_ok in H. destruct H as (u & st2 & Hn & H).
    apply bind_ok in H. destruct H as (c' & st3 & Hu & H).
    unfold bind at 1. rewrite Hn. unfold bind at 1. rewrite Hu.
    apply IH, H.
Qed.

Lemma visit_container_unfold (items : list node) st :
  items <> [] ->
  visit_container items st =
  (container <- visit_items accept items [] ;; add_depth (-1) ;;; ret container)
    (Visitor (depth st + 1) (warnings st)).
Proof. destruct items; [congruence | reflexivity]. Qed.

(** C4.  [key] is not repeatable and is already in [target].  At depth 0
    [update_tree] returns, the new value is stored under [key] in place
    of the old one and [key] is logged as a warning.  At depth 1 or more
    it raises [KeyConflict] and changes nothing.  No caller catches the
    exception: it is the outcome of [visit_container] for the container
    in which the conflict occurs, and of [visit_container] for every
    container that holds, in a block, a container whose visit raises. *)
Theorem non_repeatable_key_redeclared (target : pydict) (key : string) (x : pyval) :
  in_keys key PLURAL_KEYS = false ->
  Dict.mem key target = true ->
  (forall st, depth st = 0 ->
     update_tree target (PDict [(key, x)]) st =
       (Ok (Dict.set key x target), Visitor (depth st) (key :: warnings st)) /\
     Dict.get key (Dict.set key x target) = Some x /\
     Dict.keys (Dict.set key x target) = Dict.keys target) /\
  (forall st, 1 <= depth st ->
     update_tree target (PDict [(key, x)]) st = (Raise (KeyConflict key), st)) /\
  (forall pre item post st st1 st2,
     0 <= depth st ->
     visit_items accept pre [] (Visitor (depth st + 1) (warnings st)) = (Ok target, st1) ->
     accept item st1 = (Ok (PDict [(key, x)]), st2) ->
     visit_container (pre ++ item :: post)%list st = (Raise (KeyConflict key), st2)) /\
  (forall pre type lb rb name body post st c1 st1 e st2,
     visit_items accept pre [] (Visitor (depth st + 1) (warnings st)) = (Ok c1, st1) ->
     visit_container body st1 = (Raise e, st2) ->
     visit_container (pre ++ BlockNode type lb rb name body :: post)%list st =
       (Raise e, st2)).
Proof.
  intros Hnp Hmem.
  assert (Hraise : forall st, 1 <= depth st ->
            update_tree target (PDict [(key, x)]) st = (Raise (KeyConflict key), st)).
  { intros st Hd. unfold update_tree. rewrite Hnp, Hmem.
    unfold bind, get_depth.
    destruct (Z.eqb_spec (depth st) 0); [lia | reflexivity]. }
  split; [|split; [exact Hraise|split]].
  - intros st Hd. split; [|split].
    + unfold update_tree. rewrite Hnp, Hmem.
      unfold bind, get_depth.
      destruct (Z.eqb_spec (depth st) 0); [reflexivity | contradiction].
    + clear. induction target as [|[k v] d IH]; simpl.
      * now rewrite String.eqb_refl.
      * destruct (String.eqb_spec key k); simpl.
        -- now rewrite String.eqb_refl.
        -- destruct (String.eqb_spec key k); [congruence | exact IH].
    + revert Hmem. clear. unfold Dict.mem.
      induction target as [|[k v] d IH]; simpl; intros Hmem.
      * discriminate.
      * destruct (String.eqb_spec key k); simpl.
        -- now subst.
        -- f_equal. apply IH. exact Hmem.
  - intros pre item post st st1 st2 Hd Hpre Hitem.
    rewrite visit_container_unfold by (destruct pre; discriminate).
    unfold bind at 1. erewrite visit_items_app by exact Hpre. simpl.
    unfold bind at 1. rewrite Hitem. unfold bind at 1.
    rewrite Hraise; [reflexivity|].
    apply keeps_depth_accept in Hitem.
    apply (keeps_depth_visit_items accept) in Hpre;
      [|apply Forall_forall; intros n _; apply keeps_depth_accept].
    simpl in Hpre. lia.
  - intros pre type lb rb name body post st c1 st1 e st2 Hpre Hbody.
    rewrite visit_container_unfold by (destruct pre; discriminate).
    unfold bind at 1. erewrite visit_items_app by exact Hpre. simpl.
    unfold bind at 1. unfold bind at 1.
    unfold visit_container in Hbody. rewrite Hbody. reflexivity.
Qed.

End VisitorFacts.

Lemma non_repeatable_key_redeclared_witness :
  @update_tree Sample.keys [("label", PStr "a")] (PDict [("label", PStr "b")])
               (Visitor 0 []) =
    (Ok [("label", PStr "b")], Visitor 0 ["label"]) /\
  @update_tree Sample.keys [("label", PStr "a")] (PDict [("label", PStr "b")])
               (Visitor 1 []) =
    (Raise (KeyConflict "label"), Visitor 1 []).
Proof.
  destruct (@non_repeatable_key_redeclared Sample.keys Sample.repr
              [("label", PStr "a")] "label" (PStr "b") eq_refl eq_refl)
    as (H0 & H1 & _).
  split.
  - exact (proj1 (H0 (Visitor 0 []) eq_refl)).
  - apply H1. intro E; discriminate E.
Defined.

Lemma depth_restored_on_return_witness :
  depth (snd (@visit Sample.keys Sample.repr
                (Document [PairNode (type_token "label" "")
                                    (Token Quoted (PStr "x") None None)])
                init_visitor)) = -1.
Proof.
  exact (proj1 (proj2 (@depth_restored_on_return Sample.keys Sample.repr)
                      (Document [PairNode (type_token "label" "")
                                          (Token Quoted (PStr "x") None None)])
                      _ _ eq_refl)).
Defined.

(** C10 as stated fails for a call that raises: the conflict inside the
    block leaves [depth] at 1, and the next [visit] on the same visitor
    treats a repeated top-level key as a conflict where a fresh visitor
    keeps the last value. *)
Lemma depth_left_raised_by_conflict :
  let pair k v := PairNode (type_token k "") (Token Plain (PStr v) None None) in
  let doc := Document [BlockNode (type_token "explore" "") (Some "") (Some "") None
                                 [pair "from" "a"; pair "from" "b"]] in
  let doc2 := Document [pair "label" "x"; pair "label" "y"] in
  @visit Sample.keys Sample.repr doc init_visitor =
    (Raise (KeyConflict "from"), Visitor 1 []) /\
  depth (Visitor 1 []) <> depth init_visitor /\
  fst (@visit Sample.keys Sample.repr doc2 (Visitor 1 [])) = Raise (KeyConflict "label") /\
  fst (@visit Sample.keys Sample.repr doc2 init_visitor) = Ok [("label", PStr "y")].
Proof. repeat split; discriminate. Qed.

(** ** What the builder does to its input *)

Section InputMutation.
Context {K : Keys}.

Lemma parse_items_skip rec (skip : string -> bool) (d : pydict) :
  parse_items rec skip d =
  parse_items rec (fun _ => false) (filter (fun kv => negb (skip (fst kv))) d).
Proof.
  induction d as [|[k v] d IH]; simpl; [reflexivity|].
  destruct (skip k); simpl; [exact IH | now rewrite IH].
Qed.

Lemma filter_all {A} (l : list A) : filter (fun _ => true) l = l.
Proof. induction l as [|x l IH]; simpl; [reflexivity | now rewrite IH]. Qed.

Lemma skipped_entries (pop : bool) (d : pydict) :
  filter (fun kv => negb (pop && String.eqb "name" (fst kv))) d =
  if pop then Dict.remove "name" d else d.
Proof. destruct pop; simpl; [reflexivity | apply filter_all]. Qed.

(** [parse_any] on a mapping, in the words of the source: the name is
    popped when [pops_name] holds, and [parse_block] runs on what is
    left. *)
Lemma parse_any_dict (key : string) (d : pydict) :
  parse_any key (PDict d) =
  ('(n, d') <- parse_block key
                 (if pops_name key d then Dict.remove "name" d else d)
                 (if pops_name key d then Dict.get "name" d else None) ;;
   ret (One n, PDict d')).
Proof.
  simpl. unfold parse_block. fold (pops_name key d).
  now rewrite parse_items_skip, skipped_entries.
Qed.

(** [parse_any] on a list, in the words of the source: [expand_list] under
    a plural key, [parse_list] otherwise. *)
Lemma parse_any_list (key : string) (values : list pyval) (st : DictParser) :
  parse_any key (PList values) st =
  (plural <- is_plural_key key ;;
   if plural then
     '(nodes, values') <- expand_list key values ;;
     ret (Many nodes, PList values')
   else
     n <- parse_list key values ;;
     ret (One n, PList values)) st.
Proof.
  simpl. unfold expand_list, bind.
  destruct (is_plural_key key st) as [[[|]|e] st1]; try reflexivity.
  destruct (parse_values _ values st1) as [[[rs vs']|e] st2]; reflexivity.
Qed.

Lemma is_plural_key_static (key : string) (st : DictParser) :
  (in_keys (singularize key) PLURAL_KEYS = true -> singularize key <> "allowed_value") ->
  is_plural_key key st = (Ok (in_keys (singularize key) PLURAL_KEYS), st).
Proof.
  intros H. unfold is_plural_key.
  destruct (in_keys (singularize key) PLURAL_KEYS); [|reflexivity]. simpl.
  destruct (String.eqb_spec (singularize key) "allowed_value") as [E|_];
    [now apply H in E | reflexivity].
Qed.

Lemma parse_items_keys rec (d d' : pydict) rs st st' :
  parse_items rec (fun _ => false) d st = (Ok (rs, d'), st') ->
  Dict.keys d' = Dict.keys d.
Proof.
  revert d' rs st st'.
  induction d as [|[k v] d IH]; intros d' rs st st' H; simpl in H.
  - inversion H. reflexivity.
  - apply bind_ok in H. destruct H as ([r v'] & st1 & H1 & H).
    apply bind_ok in H. destruct H as ([rs' d''] & st2 & H2 & H).
    inversion H; subst. simpl. f_equal. eapply IH. exact H2.
Qed.

Lemma parse_items_left (d d' : pydict) rs st st' :
  Forall (fun kv => forall key st r v' st',
              no_allowed_value_list key (snd kv) = true ->
              parse_any key (snd kv) st = (Ok (r, v'), st') ->
              v' = left_by key (snd kv)) d ->
  forallb (fun kv => no_allowed_value_list (fst kv) (snd kv)) d = true ->
  parse_items parse_any (fun _ => false) d st = (Ok (rs, d'), st') ->
  d' = left_document d.
Proof.
  intros Hd. revert d' rs st st'.
  induction Hd as [|[k v] d Hv _ IH]; intros d' rs st st' Hok H; simpl in H.
  - inversion H. reflexivity.
  - simpl in Hok. apply andb_true_iff in Hok. destruct Hok as [Hokv Hok].
    apply bind_ok in H. destruct H as ([r v'] & st1 & H1 & H).
    apply bind_ok in H. destruct H as ([rs' d''] & st2 & H2 & H).
    inversion H; subst. simpl. f_equal.
    + f_equal. eapply Hv; [exact Hokv | exact H1].
    + eapply IH; [exact Hok | exact H2].
Qed.

Lemma parse_values_left key (vs vs' : list pyval) rs st st' :
  Forall (fun v => forall key st r v' st',
              no_allowed_value_list key v = true ->
              parse_any key v st = (Ok (r, v'), st') -> v' = left_by key v) vs ->
  forallb (no_allowed_value_list key) vs = true ->
  parse_values (parse_any key) vs st = (Ok (rs, vs'), st') ->
  vs' = map (left_by key) vs.
Proof.
  intros Hvs. revert vs' rs st st'.
  induction Hvs as [|v vs Hv _ IH]; intros vs' rs st st' Hok H; simpl in H.
  - inversion H. reflexivity.
  - simpl in Hok. apply andb_true_iff in Hok. destruct Hok as [Hokv Hok].
    apply bind_ok in H. destruct H as ([r v'] & st1 & H1 & H).
    apply bind_ok in H. destruct H as ([rs' vs''] & st2 & H2 & H).
    inversion H; subst. simpl. f_equal.
    + eapply Hv; [exact Hokv | exact H1].
    + eapply IH; [exact Hok | exact H2].
Qed.

Lemma parse_block_items' key name body st n d' st' :
  parse_block_around key name body st = (Ok (n, d'), st') ->
  exists nodes st1 st2, body st1 = (Ok (nodes, d'), st2).
Proof.
  intros H. unfold parse_block_around in H.
  apply bind_ok in H. destruct H as (u & s1 & _ & H).
  apply bind_ok in H. destruct H as (s0 & s2 & _ & H).
  apply bind_ok in H. destruct H as (u' & s3 & _ & H).
  apply bind_ok in H. destruct H as ([nodes items'] & s4 & Hb & H).
  inv_ok H. eauto.
Qed.

(** The entries that are left, written over the mapping without the
    popped name. *)
Lemma left_entries_filter (pop : bool) (d : pydict) :
  flat_map (fun kv => if pop && String.eqb "name" (fst kv) then []
                      else [(fst kv, left_by (fst kv) (snd kv))]) d =
  left_document (filter (fun kv => negb (pop && String.eqb "name" (fst kv))) d).
Proof.
  induction d as [|kv d IH]; [reflexivity|].
  cbn [flat_map filter]. rewrite IH.
  destruct (pop && String.eqb "name" (fst kv)); reflexivity.
Qed.

(** [left_by] on a mapping, in the words of the source: the name is
    popped, and every entry that is left is built under its key. *)
Lemma left_by_dict (key : string) (d : pydict) :
  left_by key (PDict d) =
  PDict (left_document (if pops_name key d then Dict.remove "name" d else d)).
Proof. rewrite <- skipped_entries, <- left_entries_filter. reflexivity. Qed.

Lemma left_by_list (key : string) (vs : list pyval) :
  left_by key (PList vs) =
  if in_keys (singularize key) PLURAL_KEYS
  then PList (map (left_by (singularize key)) vs)
  else PList vs.
Proof. reflexivity. Qed.

Lemma forallb_filter {A} (p q : A -> bool) (l : list A) :
  forallb p l = true -> forallb p (filter q l) = true.
Proof.
  induction l as [|x l IH]; simpl; [reflexivity|].
  intros H. apply andb_true_iff in H. destruct H as [Hx Hl].
  destruct (q x); simpl; [rewrite Hx|]; auto.
Qed.

Lemma parse_any_left (v : pyval) :
  forall key st r v' st',
    no_allowed_value_list key v = true ->
    parse_any key v st = (Ok (r, v'), st') -> v' = left_by key v.
Proof.
  induction v as [s|z|vs IH|d IH|] using pyval_ind'; intros key st r v' st' Hok H.
  - simpl in H. inv_ok H. reflexivity.
  - discriminate.
  - rewrite parse_any_list in H. rewrite left_by_list.
    assert (Hok' : (if in_keys (singularize key) PLURAL_KEYS
                    then negb (String.eqb (singularize key) "allowed_value")
                         && forallb (no_allowed_value_list (singularize key)) vs
                    else true) = true) by exact Hok.
    clear Hok. rename Hok' into Hok.
    assert (Hst : is_plural_key key st =
                  (Ok (in_keys (singularize key) PLURAL_KEYS), st)).
    { apply is_plural_key_static. intros Hin. rewrite Hin in Hok.
      apply andb_true_iff in Hok. destruct Hok as [Hne _].
      intros E. rewrite E in Hne. discriminate. }
    unfold bind at 1 in H. rewrite Hst in H.
    destruct (in_keys (singularize key) PLURAL_KEYS).
    + apply andb_true_iff in Hok. destruct Hok as [_ Hok].
      apply bind_ok in H. destruct H as ([nodes values'] & st2 & Hv & H).
      inversion H; subst. f_equal.
      unfold expand_list in Hv.
      apply bind_ok in Hv. destruct Hv as ([rs vs'] & st3 & Hv & Hr).
      inversion Hr; subst.
      eapply parse_values_left; [exact IH | exact Hok | exact Hv].
    + inv_ok H. reflexivity.
  - rewrite parse_any_dict in H.
    apply bind_ok in H. destruct H as ([n d'] & st1 & Hb & H).
    inversion H; subst. rewrite left_by_dict. f_equal.
    apply parse_block_items' in Hb. destruct Hb as (nodes & s1 & s2 & Hb).
    assert (Hok' : forallb (fun kv => no_allowed_value_list (fst kv) (snd kv)) d = true)
      by exact Hok.
    clear Hok. rename Hok' into Hok.
    assert (Hsub : forall kv, In kv (if pops_name key d then Dict.remove "name" d else d)
                              -> In kv d).
    { intros kv Hin. destruct (pops_name key d); [|exact Hin].
      unfold Dict.remove in Hin. apply filter_In in Hin. tauto. }
    eapply parse_items_left; [| |exact Hb].
    + apply Forall_forall. intros kv Hin.
      rewrite Forall_forall in IH. apply IH, Hsub, Hin.
    + destruct (pops_name key d); [|exact Hok].
      unfold Dict.remove. now apply forallb_filter.
  - discriminate.
Qed.

(** C8, as the code has it.  When [parse] returns, the mapping it was given
    is what [left_document] says: the same keys in the same order and,
    entry by entry, the values it had, except that every mapping which was
    built as a block under a key outside [KEYS_WITH_NAME_FIELDS] has lost
    its ["name"] entry.  The mappings built as blocks are the values of
    the entries of the document and of the blocks, and the elements of
    the lists under a key whose singular is repeatable; a mapping inside
    any other list keeps its name.  Nothing is added and nothing else is
    removed or changed.  This is stated for the mappings that hold no
    list under a key whose singular is the repeatable key
    [allowed_value]. *)
Theorem parse_pops_names_only (obj obj' : pydict) doc st st' :
  forallb (fun kv => no_allowed_value_list (fst kv) (snd kv)) obj = true ->
  parse obj st = (Ok (doc, obj'), st') ->
  obj' = left_document obj /\ Dict.keys obj' = Dict.keys obj.
Proof.
  intros Hok H. unfold parse in H.
  apply bind_ok in H. destruct H as ([nodes o] & st1 & Hitems & H).
  inversion H; subst. split.
  - eapply parse_items_left; [|exact Hok|exact Hitems].
    apply Forall_forall. intros kv _. apply parse_any_left.
  - eapply parse_items_keys. exact Hitems.
Qed.

End InputMutation.

Lemma parse_pops_names_only_witness :
  [("views", PList [PDict [("label", PStr "Orders")]]);
   ("links", PList [PDict [("name", PStr "docs")]])] =
  @left_document Sample.keys
    [("views", PList [PDict [("name", PStr "orders"); ("label", PStr "Orders")]]);
     ("links", PList [PDict [("name", PStr "docs")]])] /\
  Dict.keys [("views", PList [PDict [("label", PStr "Orders")]]);
             ("links", PList [PDict [("name", PStr "docs")]])] =
  Dict.keys [("views", PList [PDict [("name", PStr "orders"); ("label", PStr "Orders")]]);
             ("links", PList [PDict [("name", PStr "docs")]])].
Proof.
  exact (@parse_pops_names_only Sample.keys
           [("views", PList [PDict [("name", PStr "orders"); ("label", PStr "Orders")]]);
            ("links", PList [PDict [("name", PStr "docs")]])]
           _ _ init_parser _ eq_refl eq_refl).
Defined.

(** What is left of three mappings with a name: inside a list under a
    repeatable key and as the value of an entry the name is removed,
    under an exempt key and inside a list that goes to [parse_list] it is
    kept. *)
Example left_document_at_lists_and_blocks :
  @left_document Sample.keys
    [("views", PList [PDict [("name", PStr "a"); ("label", PStr "A")]]);
     ("links", PList [PDict [("name", PStr "b")]]);
     ("dimension", PDict [("name", PStr "c");
                          ("param", PDict [("name", PStr "d")])])] =
    [("views", PList [PDict [("label", PStr "A")]]);
     ("links", PList [PDict [("name", PStr "b")]]);
     ("dimension", PDict [("param", PDict [("name", PStr "d")])])].
Proof. reflexivity. Qed.

(** C8 as stated fails: after the call the nested mapping no longer has its
    ["name"] entry. *)
Lemma parse_removes_name_from_input :
  let obj := [("view", PDict [("name", PStr "orders"); ("label", PStr "Orders")])] in
  exists doc st',
    @parse Sample.keys obj init_parser =
      (Ok (doc, [("view", PDict [("label", PStr "Orders")])]), st') /\
    [("view", PDict [("label", PStr "Orders")])] <> obj.
Proof. do 2 eexists. split; [reflexivity | discriminate]. Qed.

(** ** Mappings *)

Module DictFacts.

Lemma get_set_eq (k : string) (v : pyval) (d : pydict) :
  Dict.get k (Dict.set k v d) = Some v.
Proof.
  induction d as [|[k' v'] d IH]; simpl.
  - now rewrite String.eqb_refl.
  - destruct (String.eqb_spec k k') as [E|N]; simpl.
    + now rewrite String.eqb_refl.
    + destruct (String.eqb_spec k k'); [contradiction | exact IH].
Qed.

Lemma get_set_ne (k k' : string) (v : pyval) (d : pydict) :
  k' <> k -> Dict.get k' (Dict.set k v d) = Dict.get k' d.
Proof.
  intros N. induction d as [|[k0 v0] d IH]; simpl.
  - destruct (String.eqb_spec k' k); [contradiction | reflexivity].
  - destruct (String.eqb_spec k k0) as [E|N0]; simpl.
    + subst k0. destruct (String.eqb_spec k' k); [contradiction | reflexivity].
    + destruct (String.eqb_spec k' k0); [reflexivity | exact IH].
Qed.

Lemma keys_set (k : string) (v : pyval) (d : pydict) :
  Dict.keys (Dict.set k v d) =
  if Dict.mem k d then Dict.keys d else (Dict.keys d ++ [k])%list.
Proof.
  unfold Dict.mem. induction d as [|[k0 v0] d IH]; simpl; [reflexivity|].
  destruct (String.eqb_spec k k0) as [E|N]; simpl.
  - now subst.
  - rewrite IH. destruct (Dict.get k d); reflexivity.
Qed.

Lemma mem_in_keys (k : string) (d : pydict) :
  Dict.mem k d = true <-> In k (Dict.keys d).
Proof.
  unfold Dict.mem. induction d as [|[k0 v0] d IH]; simpl.
  - split; [discriminate | tauto].
  - destruct (String.eqb_spec k k0) as [E|N].
    + split; auto.
    + rewrite IH. split; [auto | intros [E|H]; [congruence | exact H]].
Qed.

(** Assignment keeps the keys of a mapping distinct. *)
Lemma set_keeps_keys_distinct (k : string) (v : pyval) (d : pydict) :
  NoDup (Dict.keys d) -> NoDup (Dict.keys (Dict.set k v d)).
Proof.
  intros H. rewrite keys_set. destruct (Dict.mem k d) eqn:E; [exact H|].
  apply NoDup_app; [exact H | repeat constructor; simpl; tauto|].
  intros x Hx [<-|[]]. apply mem_in_keys in Hx. congruence.
Qed.

Lemma set_same (k : string) (v : pyval) (d : pydict) :
  Dict.get k d = Some v -> Dict.set k v d = d.
Proof.
  induction d as [|[k0 v0] d IH]; simpl; [discriminate|].
  destruct (String.eqb_spec k k0) as [E|N]; intros H.
  - inversion H; now subst.
  - now rewrite IH.
Qed.

Lemma set_set (k : string) (v w : pyval) (d : pydict) :
  Dict.set k v (Dict.set k w d) = Dict.set k v d.
Proof.
  induction d as [|[k0 v0] d IH]; simpl.
  - now rewrite String.eqb_refl.
  - destruct (String.eqb_spec k k0) as [E|N]; simpl.
    + now rewrite String.eqb_refl.
    + destruct (String.eqb_spec k k0); [contradiction | now rewrite IH].
Qed.

End DictFacts.

(** ** Round trip *)

Section RoundTrip.
Context {K : Keys} {R : Repr}.

Lemma parse_token_value (key s : string) (fq : bool) (pre suf : option string) :
  exists t, parse_token key (PStr s) fq pre suf = Ok t /\
            value t = PStr (if fq then s else norm_value key s).
Proof.
  unfold parse_token, norm_value. destruct fq; simpl.
  - eexists; split; reflexivity.
  - destruct (in_keys key QUOTED_LITERAL_KEYS); [eexists; split; reflexivity|].
    destruct (in_keys key EXPR_BLOCK_KEYS); eexists; split; reflexivity.
Qed.

Lemma no_filters_force_quote (st : DictParser) :
  no_filters_parent st -> pair_force_quote st = false.
Proof.
  unfold no_filters_parent, pair_force_quote.
  destruct (parent_key st) as [p|]; [|reflexivity].
  destruct (String.eqb_spec p "filters"); [subst; congruence | reflexivity].
Qed.

(** The pair built for a string, and the entry it is visited to. *)
Lemma parse_pair_visits (key s : string) (st : DictParser) :
  no_filters_parent st ->
  exists n,
    parse_pair key (PStr s) st = (Ok n, with_latest_node LPairNode st) /\
    forall vst, accept n vst = (Ok (PDict [(key, PStr (norm_value key s))]), vst).
Proof.
  intros Hnf.
  destruct (parse_token_value key s (pair_force_quote st) None None) as (t & Ht & Hv).
  rewrite (no_filters_force_quote Hnf) in Hv.
  exists (PairNode (type_token key (prefix_of st)) t). split.
  - now rewrite parse_pair_eq, Ht.
  - intros vst. simpl. unfold visit_token. rewrite Hv. reflexivity.
Qed.


Lemma update_tree_merge (target target' : pydict) (kx : string * pyval) :
  merge target kx = Some target' ->
  forall vst, update_tree target (PDict [kx]) vst = (Ok target', vst).
Proof.
  destruct kx as [k x]. unfold merge, update_tree, Dict.mem. intros H vst.
  destruct (in_keys k PLURAL_KEYS).
  - destruct (Dict.get (pluralize k) target) as [[]|]; inversion H; reflexivity.
  - destruct (Dict.get k target); inversion H; reflexivity.
Qed.

Lemma visit_items_merge (nodes : list node) (items : pydict) :
  visits_to nodes items ->
  forall c c', merge_all items c = Some c' ->
  forall vst, visit_items accept nodes c vst = (Ok c', vst).
Proof.
  induction 1 as [|n kx nodes items Hn _ IH]; intros c c' Hm vst; simpl in *.
  - inversion Hm; reflexivity.
  - destruct (merge c kx) as [c1|] eqn:Hc; [|discriminate].
    unfold bind at 1. rewrite Hn. unfold bind at 1.
    rewrite (update_tree_merge _ _ Hc). apply IH, Hm.
Qed.

Lemma visit_container_merge (nodes : list node) (items body : pydict) :
  visits_to nodes items ->
  merge_all items [] = Some body ->
  forall vst, visit_container_with accept nodes vst = (Ok body, vst).
Proof.
  intros Hv Hm vst. unfold visit_container_with.
  destruct nodes as [|n nodes].
  - inversion Hv; subst. inversion Hm; reflexivity.
  - unfold bind at 1. unfold add_depth at 1. unfold bind at 1.
    rewrite (visit_items_merge Hv _ Hm).
    unfold bind, add_depth, ret. f_equal.
    destruct vst as [d w]; simpl. f_equal. lia.
Qed.












Lemma flatten_cons (r : any_result) (rs : list any_result) :
  flatten (r :: rs) = (flatten [r] ++ flatten rs)%list.
Proof. unfold flatten. simpl. now rewrite app_nil_r. Qed.



(** [parse_block] around a body that returns. *)
Lemma parse_block_around_run key name body st nodes items' st2 :
  body (with_latest_node LNone (with_level (level st + 1) (with_parent_key key st))) =
    (Ok (nodes, items'), st2) ->
  exists pre lb rb st',
    parse_block_around key name body st =
      (Ok (BlockNode (type_token key pre) lb rb
                     (match name with
                      | Some n => if truthy n then Some (Token Plain n None None) else None
                      | None => None
                      end)
                     (flatten nodes), items'), st') /\
    parent_key st' = parent_key st2.
Proof.
  intros Hbody. unfold parse_block_around.
  unfold bind at 1. unfold set_parent_key at 1.
  unfold bind at 1. unfold get_state at 1.
  unfold bind at 1. unfold increase_level at 1.
  unfold bind at 1.
  change (level (with_parent_key key st)) with (level st).
  rewrite Hbody.
  unfold bind, decrease_level, set_latest_node, get_state, ret.
  do 4 eexists. split; reflexivity.
Qed.


Lemma dict_get_absent (k : string) (d : pydict) :
  ~ In k (Dict.keys d) -> Dict.get k d = None.
Proof.
  induction d as [|[k' v] d IH]; simpl; intros Hn; [reflexivity|].
  destruct (String.eqb_spec k k'); [subst; tauto | apply IH; tauto].
Qed.


Lemma merge_all_repeated (key : string) (xs l : list pyval) (acc : pydict) :
  in_keys key PLURAL_KEYS = true ->
  Dict.get (pluralize key) acc = Some (PList l) ->
  merge_all (map (fun x => (key, x)) xs) acc =
  Some (Dict.set (pluralize key) (PList (l ++ xs)) acc).
Proof.
  intros Hpl. revert l acc. induction xs as [|x xs IH]; intros l acc Hget; simpl.
  - rewrite app_nil_r. now rewrite DictFacts.set_same.
  - rewrite Hpl, Hget.
    rewrite (IH (l ++ [x])%list) by apply DictFacts.get_set_eq.
    now rewrite DictFacts.set_set, <- app_assoc.
Qed.










End RoundTrip.



(** The canonical form on the scenarios of the specification: a list in
    plural form comes back as it is, with the name of each block after
    the other entries of its body; a block under a repeatable key comes
    back as a list of one block under the plural; a name under an exempt
    key stays in its place. *)
Example canonical_of_plural_list :
  @canonical Sample.keys
    [("dimensions", PList [PDict [("name", PStr "a"); ("sql", PStr "x")];
                           PDict [("name", PStr "b"); ("sql", PStr "y")]])] =
  [("dimensions", PList [PDict [("sql", PStr "x "); ("name", PStr "a")];
                         PDict [("sql", PStr "y "); ("name", PStr "b")]])].
Proof. reflexivity. Qed.

Example canonical_of_singular_key :
  @canonical Sample.keys
    [("dimension", PDict [("name", PStr "order_id"); ("type", PStr "string")]);
     ("label", PStr "Orders")] =
  [("dimensions", PList [PDict [("type", PStr "string"); ("name", PStr "order_id")]]);
   ("label", PStr "Orders")].
Proof. reflexivity. Qed.

Example canonical_keeps_exempt_name_in_place :
  @canonical Sample.keys
    [("param", PDict [("name", PStr "p"); ("value", PStr "1")])] =
  [("param", PDict [("name", PStr "p"); ("value", PStr "1")])].
Proof. reflexivity. Qed.

(** Outside the mappings of the round trip: an empty list in plural form
    builds no node and does not come back, and a list under a repeatable
    key that is its own singular comes back under the plural. *)
Example outside_the_round_trip :
  (exists doc st',
      @parse Sample.keys [("views", PList [])] init_parser =
        (Ok (doc, [("views", PList [])]), st') /\
      @visit Sample.keys Sample.repr doc init_visitor = (Ok [], init_visitor)) /\
  (exists doc st',
      @parse Sample.keys [("view", PList [PStr "a"])] init_parser =
        (Ok (doc, [("view", PList [PStr "a"])]), st') /\
      @visit Sample.keys Sample.repr doc init_visitor =
        (Ok [("views", PList [PStr "a"])], init_visitor)).
Proof. split; do 2 eexists; split; reflexivity. Qed.

(** * Further properties of the code *)

(** ** Dictionaries *)


(** ** The merge of the visitor *)

Section MergeFacts.
Context {K : Keys}.

(** X1.  A call of [update_tree] that returns was given a mapping of one
    entry and has changed one key of the target: the plural of the entry's
    key when that key is repeatable, the key itself otherwise.  The value
    under that key is the list extended by the new value, a new list of
    one value, or the new value; every other key keeps its value, the keys
    already present keep their order, a new key goes last, and [depth] is
    untouched. *)
Theorem update_tree_touches_one_key (target target' : pydict) (update : pyval) st st' :
  update_tree target update st = (Ok target', st') ->
  exists key x,
    update = PDict [(key, x)] /\
    let k := if in_keys key PLURAL_KEYS then pluralize key else key in
    Dict.get k target' =
      Some (if in_keys key PLURAL_KEYS
            then PList (match Dict.get k target with
                        | Some (PList l) => l ++ [x]
                        | _ => [x]
                        end)
            else x) /\
    (forall k', k' <> k -> Dict.get k' target' = Dict.get k' target) /\
    Dict.keys target' =
      (if Dict.mem k target then Dict.keys target else Dict.keys target ++ [k])%list /\
    depth st' = depth st.
Proof.
  intros H. unfold update_tree in H.
  destruct update as [| |?|[|[key x] [|? ?]]|]; try discriminate.
  exists key, x. split; [reflexivity|]. cbv zeta.
  destruct (in_keys key PLURAL_KEYS).
  - unfold Dict.mem in *. destruct (Dict.get (pluralize key) target) as [[]|] eqn:E;
      inversion H; subst; clear H;
      (split; [apply DictFacts.get_set_eq|]);
      (split; [intros k' N; now apply DictFacts.get_set_ne|]);
      (split; [|reflexivity]);
      rewrite DictFacts.keys_set; unfold Dict.mem; now rewrite E.
  - unfold Dict.mem in *. destruct (Dict.get key target) eqn:E.
    + unfold bind, get_depth in H. destruct (depth st =? 0)%Z; inversion H; subst.
      split; [apply DictFacts.get_set_eq|].
      split; [intros k' N; now apply DictFacts.get_set_ne|].
      split; [|reflexivity].
      rewrite DictFacts.keys_set. unfold Dict.mem. now rewrite E.
    + inversion H; subst.
      split; [apply DictFacts.get_set_eq|].
      split; [intros k' N; now apply DictFacts.get_set_ne|].
      split; [|reflexivity].
      rewrite DictFacts.keys_set. unfold Dict.mem. now rewrite E.
Qed.

End MergeFacts.

Lemma update_tree_touches_one_key_witness :
  exists key x,
    PDict [("dimension", PStr "b")] = PDict [(key, x)] /\
    let k := if in_keys key (@PLURAL_KEYS Sample.keys)
             then @pluralize Sample.keys key else key in
    Dict.get k [("label", PStr "L"); ("dimensions", PList [PStr "a"; PStr "b"])] =
      Some (if in_keys key (@PLURAL_KEYS Sample.keys)
            then PList (match Dict.get k [("label", PStr "L");
                                          ("dimensions", PList [PStr "a"])] with
                        | Some (PList l) => l ++ [x]
                        | _ => [x]
                        end)
            else x) /\
    (forall k', k' <> k ->
                Dict.get k' [("label", PStr "L"); ("dimensions", PList [PStr "a"; PStr "b"])] =
                Dict.get k' [("label", PStr "L"); ("dimensions", PList [PStr "a"])]) /\
    Dict.keys [("label", PStr "L"); ("dimensions", PList [PStr "a"; PStr "b"])] =
      (if Dict.mem k [("label", PStr "L"); ("dimensions", PList [PStr "a"])]
       then Dict.keys [("label", PStr "L"); ("dimensions", PList [PStr "a"])]
       else Dict.keys [("label", PStr "L"); ("dimensions", PList [PStr "a"])] ++ [k])%list /\
    depth (Visitor 3 []) = depth (Visitor 3 []).
Proof.
  exact (@update_tree_touches_one_key Sample.keys
           [("label", PStr "L"); ("dimensions", PList [PStr "a"])]
           _ (PDict [("dimension", PStr "b")]) (Visitor 3 []) _ eq_refl).
Defined.

(** ** Repeated keys *)

Section RepeatedKeys.
Context {K : Keys} {R : Repr}.

(** X2.  Sibling nodes that are each visited to one entry under the same
    repeatable key are collected by [visit_container], at any depth and
    without a warning, into one list under the plural of that key, in the
    order of the siblings. *)
Theorem repeated_key_collects (key : string) (x : pyval) (xs : list pyval)
        (nodes : list node) :
  in_keys key PLURAL_KEYS = true ->
  visits_to nodes (map (fun y => (key, y)) (x :: xs)) ->
  forall vst,
    visit_container nodes vst = (Ok [(pluralize key, PList (x :: xs))], vst).
Proof.
  intros Hpl Hv vst. unfold visit_container.
  apply (visit_container_merge Hv). simpl. rewrite Hpl. simpl.
  rewrite (@merge_all_repeated _ key xs [x] [(pluralize key, PList [x])] Hpl).
  - simpl. now rewrite String.eqb_refl.
  - simpl. now rewrite String.eqb_refl.
Qed.

End RepeatedKeys.

Lemma repeated_key_collects_witness :
  let pair v := PairNode (type_token "dimension" "") (Token Plain (PStr v) None None) in
  @visit_container Sample.keys Sample.repr [pair "a"; pair "b"; pair "c"] (Visitor 2 []) =
  (Ok [("dimensions", PList [PStr "a"; PStr "b"; PStr "c"])], Visitor 2 []).
Proof.
  intros pair.
  apply (@repeated_key_collects Sample.keys Sample.repr "dimension" (PStr "a")
           [PStr "b"; PStr "c"] [pair "a"; pair "b"; pair "c"] eq_refl).
  repeat constructor.
Defined.

(** ** What the visitor raises, logs and returns *)

Section OutcomeFacts.
Context {S : Type}.

Lemma bind_raises {A B} (m : M S A) (k : A -> M S B) st e st' :
  bind m k st = (Raise e, st') ->
  m st = (Raise e, st') \/
  exists a st1, m st = (Ok a, st1) /\ k a st1 = (Raise e, st').
Proof.
  unfold bind. destruct (m st) as [[a|e0] st1]; intros H.
  - right; eauto.
  - left. congruence.
Qed.

Lemma raises_only_ret {A} (P : exn -> Prop) (a : A) : raises_only P (@ret S A a).
Proof. intros st e st' H. discriminate. Qed.

Lemma raises_only_raise {A} (P : exn -> Prop) (e : exn) :
  P e -> raises_only P (@raise S A e).
Proof. intros He st e' st' H. inversion H; subst. exact He. Qed.

Lemma raises_only_bind {A B} (P : exn -> Prop) (m : M S A) (k : A -> M S B) :
  raises_only P m ->
  (forall st a st', m st = (Ok a, st') -> raises_only P (k a)) ->
  raises_only P (bind m k).
Proof.
  intros Hm Hk st e st' H. apply bind_raises in H.
  destruct H as [H|(a & st1 & H1 & H2)].
  - eapply Hm; eauto.
  - eapply Hk; eauto.
Qed.

Lemma raises_only_mapM {A B} (P : exn -> Prop) (f : A -> M S B) (xs : list A) :
  Forall (fun x => raises_only P (f x)) xs -> raises_only P (mapM f xs).
Proof.
  induction 1 as [|x xs Hx _ IH]; simpl.
  - apply raises_only_ret.
  - apply raises_only_bind; [exact Hx|]. intros ? y ? ?.
    apply raises_only_bind; [exact IH|]. intros ? ys ? ?. apply raises_only_ret.
Qed.

End OutcomeFacts.

Section VisitorOutcomes.
Context {K : Keys} {R : Repr}.

(** What [accept] returns is a mapping of one entry or, for a token, a
    string. *)
Lemma accept_returns_one_entry (n : node) st u st' :
  accept n st = (Ok u, st') ->
  (exists k x, u = PDict [(k, x)]) \/ (exists s, u = PStr s).
Proof.
  destruct n as [ty lb rb nm c|ty lb items rb tc|ty v|t]; simpl; intros H.
  - apply bind_ok in H. destruct H as (d & st1 & _ & H). inversion H. left. eauto.
  - apply bind_ok in H. destruct H as (vs & st1 & _ & H). inversion H. left. eauto.
  - inversion H. left. eauto.
  - inversion H. right. eauto.
Qed.

Lemma update_tree_raises (target : pydict) (u : pyval) :
  (exists k x, u = PDict [(k, x)]) \/ (exists s, u = PStr s) ->
  raises_only visitor_exn (update_tree target u).
Proof.
  intros [(k & x & ->)|(s & ->)] st e st' H; unfold update_tree in H.
  - destruct (in_keys k PLURAL_KEYS).
    + destruct (Dict.mem _ target); [|discriminate].
      destruct (Dict.get _ target) as [[]|]; inversion H; now left.
    + destruct (Dict.mem k target); [|discriminate].
      unfold bind, get_depth in H. destruct (depth st =? 0)%Z; inversion H.
      right. eauto.
  - inversion H. now left.
Qed.

Lemma visit_items_raises (items : list node) :
  Forall (fun n => raises_only visitor_exn (accept n)) items ->
  forall c, raises_only visitor_exn (visit_items accept items c).
Proof.
  induction 1 as [|n items Hn _ IH]; intros c; simpl.
  - apply raises_only_ret.
  - apply raises_only_bind; [exact Hn|]. intros st u st' Hu.
    apply raises_only_bind;
      [apply update_tree_raises; eapply accept_returns_one_entry; exact Hu|].
    intros _ c' _ _. apply IH.
Qed.

Lemma accept_raises (n : node) : raises_only visitor_exn (accept n).
Proof.
  induction n as [ty lb rb nm c IH|ty lb items rb tc IH|ty v|t] using node_ind'; simpl.
  - apply raises_only_bind; [|intros; apply raises_only_ret].
    unfold visit_container_with. destruct c as [|n c]; [apply raises_only_ret|].
    apply raises_only_bind; [intros ? ? ? ?; discriminate|]. intros ? ? ? ?.
    apply raises_only_bind; [apply visit_items_raises, IH|]. intros ? d ? ?.
    apply raises_only_bind; [intros ? ? ? ?; discriminate|]. intros ? ? ? ?.
    apply raises_only_ret.
  - apply raises_only_bind; [|intros; apply raises_only_ret].
    apply raises_only_mapM, IH.
  - apply raises_only_ret.
  - apply raises_only_ret.
Qed.

(** X3.  Whatever the tree, a [visit] that raises raises [AttributeError]
    or the [KeyError] of a conflicting key.  The [KeyError] for an update
    of several keys and the [IndexError] for an empty update are never
    raised through [visit]: every update comes from [accept] and has one
    entry. *)
Theorem visit_raises_conflict_or_attribute (document : DocumentNode) st e st' :
  visit document st = (Raise e, st') ->
  e = AttributeError \/ exists key, e = KeyConflict key.
Proof.
  intros H. unfold visit, visit_container, visit_container_with in H.
  destruct (doc_container document) as [|n c] eqn:E; [discriminate|].
  revert H. generalize (n :: c). intros items H.
  apply bind_raises in H. destruct H as [H|(u & st1 & _ & H)]; [discriminate|].
  apply bind_raises in H. destruct H as [H|(d & st2 & _ & H)].
  - eapply visit_items_raises; [|exact H].
    apply Forall_forall. intros x _. apply accept_raises.
  - apply bind_raises in H. destruct H as [H|(u' & st3 & _ & H)]; discriminate.
Qed.

Lemma quiet_from_ret {A} lo (a : A) : quiet_from lo (ret a).
Proof. intros st _. simpl. split; [reflexivity | lia]. Qed.

Lemma quiet_from_raise {A} lo e : quiet_from lo (@raise DictVisitor A e).
Proof. intros st _. simpl. split; [reflexivity | lia]. Qed.

Lemma quiet_from_weaken {A} lo lo' (m : M DictVisitor A) :
  lo <= lo' -> quiet_from lo m -> quiet_from lo' m.
Proof. intros Hle Hm st Hst. apply Hm. lia. Qed.

Lemma quiet_from_bind {A B} lo (m : M DictVisitor A) (k : A -> M DictVisitor B) :
  quiet_from lo m -> (forall a, quiet_from lo (k a)) -> quiet_from lo (bind m k).
Proof.
  intros Hm Hk st Hst. destruct (Hm st Hst) as [Hw Hd]. unfold bind.
  destruct (m st) as [[a|e] st1]; simpl in *.
  - destruct (Hk a st1) as [Hw' Hd']; [lia|]. split; [congruence | lia].
  - auto.
Qed.

Lemma quiet_from_update_tree (target : pydict) (u : pyval) :
  quiet_from 1 (update_tree target u).
Proof.
  unfold update_tree.
  destruct u as [| |?|[|[key x] [|? ?]]|]; try apply quiet_from_raise.
  destruct (in_keys key PLURAL_KEYS).
  - destruct (Dict.mem _ target).
    + destruct (Dict.get _ target) as [[]|];
        first [apply quiet_from_ret | apply quiet_from_raise].
    + apply quiet_from_ret.
  - destruct (Dict.mem key target); [|apply quiet_from_ret].
    intros st Hst. unfold bind, get_depth.
    destruct (Z.eqb_spec (depth st) 0); [lia|]. simpl. split; [reflexivity | lia].
Qed.

Lemma quiet_from_mapM {A B} lo (f : A -> M DictVisitor B) (xs : list A) :
  Forall (fun x => quiet_from lo (f x)) xs -> quiet_from lo (mapM f xs).
Proof.
  induction 1 as [|x xs Hx _ IH]; simpl.
  - apply quiet_from_ret.
  - apply quiet_from_bind; [exact Hx|]. intros y.
    apply quiet_from_bind; [exact IH|]. intros ys. apply quiet_from_ret.
Qed.

Lemma quiet_from_visit_items rec (items : list node) :
  Forall (fun n => quiet_from 0 (rec n)) items ->
  forall c, quiet_from 1 (visit_items rec items c).
Proof.
  induction 1 as [|n items Hn _ IH]; intros c; simpl.
  - apply quiet_from_ret.
  - apply quiet_from_bind;
      [apply (quiet_from_weaken (lo := 0)); [lia | exact Hn]|]. intros u.
    apply quiet_from_bind; [apply quiet_from_update_tree|]. intros c'. apply IH.
Qed.

Lemma quiet_from_visit_container_with rec (items : list node) :
  Forall (fun n => quiet_from 0 (rec n)) items ->
  quiet_from 0 (visit_container_with rec items).
Proof.
  intros Hrec st Hst. unfold visit_container_with.
  destruct items as [|n items]; [simpl; split; [reflexivity | lia]|].
  assert (E : visit_container_with rec (n :: items) st =
              match visit_items rec (n :: items) []
                      {| depth := depth st + 1; warnings := warnings st |} with
              | (Ok c, st2) =>
                  (Ok c, {| depth := depth st2 + -1; warnings := warnings st2 |})
              | (Raise e, st2) => (Raise e, st2)
              end).
  { unfold visit_container_with, bind, add_depth, ret.
    destruct (visit_items rec (n :: items) [] _) as [[c|e] st2]; reflexivity. }
  unfold visit_container_with in E. rewrite E. clear E.
  destruct (quiet_from_visit_items rec Hrec []
              {| depth := depth st + 1; warnings := warnings st |}) as [Hw Hd];
    [simpl; lia|].
  destruct (visit_items rec (n :: items) [] _) as [[c|e] st2]; simpl in *.
  - split; [exact Hw | lia].
  - split; [exact Hw | lia].
Qed.

Lemma quiet_from_accept (n : node) : quiet_from 0 (accept n).
Proof.
  induction n as [ty lb rb nm c IH|ty lb items rb tc IH|ty v|t] using node_ind'; simpl.
  - apply quiet_from_bind; [|intros d; apply quiet_from_ret].
    apply quiet_from_visit_container_with, IH.
  - apply quiet_from_bind; [|intros vs; apply quiet_from_ret].
    apply quiet_from_mapM, IH.
  - apply quiet_from_ret.
  - apply quiet_from_ret.
Qed.

(** X4.  Warnings are logged for keys of the document level only: the
    visit of a node, or of a container, that starts at a depth of 0 or more
    (so that its entries are merged at depth 1 or more) logs nothing,
    whether it returns or raises. *)
Theorem nested_visit_logs_nothing (st : DictVisitor) :
  0 <= depth st ->
  (forall n, warnings (snd (accept n st)) = warnings st) /\
  (forall items, warnings (snd (visit_container items st)) = warnings st).
Proof.
  intros Hst. split.
  - intros n. apply quiet_from_accept, Hst.
  - intros items. apply (quiet_from_visit_container_with accept); [|exact Hst].
    apply Forall_forall. intros n _. apply quiet_from_accept.
Qed.

End VisitorOutcomes.

Lemma visit_raises_conflict_or_attribute_witness :
  KeyConflict "from" = AttributeError \/ exists key, KeyConflict "from" = KeyConflict key.
Proof.
  exact (@visit_raises_conflict_or_attribute Sample.keys Sample.repr
           (Document [BlockNode (type_token "explore" "") None None None
                        [PairNode (type_token "from" "") (Token Plain (PStr "a") None None);
                         PairNode (type_token "from" "") (Token Plain (PStr "b") None None)]])
           init_visitor _ _ eq_refl).
Defined.

Lemma nested_visit_logs_nothing_witness :
  warnings (snd (@visit_container Sample.keys Sample.repr
                   [PairNode (type_token "from" "") (Token Plain (PStr "a") None None);
                    PairNode (type_token "from" "") (Token Plain (PStr "b") None None)]
                   (Visitor 0 ["label"]))) = ["label"].
Proof.
  refine (proj2 (@nested_visit_logs_nothing Sample.keys Sample.repr
                   (Visitor 0 ["label"]) _) _).
  intro E; discriminate E.
Defined.

(** ** The mapping the visitor returns *)

Section VisitorResult.
Context {K : Keys} {R : Repr}.

Lemma visit_items_bare (items : list node) :
  Forall (fun n => forall st, accept (bare n) st = accept n st) items ->
  forall c st, visit_items accept (map bare items) c st = visit_items accept items c st.
Proof.
  induction 1 as [|n items Hn _ IH]; intros c st; simpl; [reflexivity|].
  unfold bind at 1 3. rewrite Hn.
  destruct (accept n st) as [[u|e] st1]; [|reflexivity].
  unfold bind. destruct (update_tree c u st1) as [[c1|e] st2]; [apply IH | reflexivity].
Qed.

Lemma mapM_bare (items : list node) :
  Forall (fun n => forall st, accept (bare n) st = accept n st) items ->
  forall st, mapM accept (map bare items) st = mapM accept items st.
Proof.
  induction 1 as [|n items Hn _ IH]; intros st; simpl; [reflexivity|].
  unfold bind at 1 3. rewrite Hn.
  destruct (accept n st) as [[u|e] st1]; [|reflexivity].
  unfold bind. now rewrite IH.
Qed.

Lemma accept_bare (n : node) : forall st, accept (bare n) st = accept n st.
Proof.
  induction n as [ty lb rb nm c IH|ty lb items rb tc IH|ty v|t] using node_ind';
    intros st; simpl.
  - assert (E : visit_container_with accept (map bare c) st =
                visit_container_with accept c st).
    { unfold visit_container_with. destruct c as [|n c]; [reflexivity|].
      change (map bare (n :: c)) with (bare n :: map bare c).
      cbv iota. unfold bind at 1 4. unfold add_depth at 1 3.
      unfold bind at 1 3.
      change (bare n :: map bare c) with (map bare (n :: c)).
      now rewrite (visit_items_bare IH). }
    unfold bind. rewrite E. destruct nm; reflexivity.
  - unfold bind. now rewrite (mapM_bare IH).
  - reflexivity.
  - reflexivity.
Qed.

(** X6.  The visitor reads nothing of the formatting: a tree and the same
    tree with every prefix, suffix, token class, brace, bracket and
    trailing comma cleared are visited to the same outcome. *)
Theorem visit_ignores_formatting (items : ContainerNode) st :
  visit (Document (map bare items)) st = visit (Document items) st.
Proof.
  unfold visit, visit_container. simpl doc_container.
  unfold visit_container_with. destruct items as [|n items]; [reflexivity|].
  change (map bare (n :: items)) with (bare n :: map bare items).
  cbv iota. unfold bind at 1 4. unfold add_depth at 1 3. unfold bind at 1 3.
  change (bare n :: map bare items) with (map bare (n :: items)).
  rewrite visit_items_bare; [reflexivity|].
  apply Forall_forall. intros x _. apply accept_bare.
Qed.

(** X7.  The name token of a block never makes its visit fail and wins
    over an entry [name] of its body: when the block without the name is
    visited to a mapping, the block with the name is visited to that
    mapping with the value of the token stored under ["name"], in the
    place of an entry [name] of the body when there is one and after the
    other entries otherwise. *)
Theorem block_name_overrides_body (type t : SyntaxToken) lb rb (body : list node)
        st (k : string) (c : pydict) st' :
  accept (BlockNode type lb rb None body) st = (Ok (PDict [(k, PDict c)]), st') ->
  accept (BlockNode type lb rb (Some t) body) st =
    (Ok (PDict [(k, PDict (Dict.set "name" (PStr (visit_token t)) c))]), st') /\
  Dict.get "name" (Dict.set "name" (PStr (visit_token t)) c) =
    Some (PStr (visit_token t)) /\
  Dict.keys (Dict.set "name" (PStr (visit_token t)) c) =
    (if Dict.mem "name" c then Dict.keys c else Dict.keys c ++ ["name"])%list.
Proof.
  intros H. simpl in *.
  apply bind_ok in H. destruct H as (d & st1 & Hd & H). inversion H; subst.
  split; [|split].
  - unfold bind. rewrite Hd. reflexivity.
  - apply DictFacts.get_set_eq.
  - apply DictFacts.keys_set.
Qed.

End VisitorResult.

Lemma block_name_overrides_body_witness :
  let body := [PairNode (type_token "name" "") (Token Plain (PStr "inner") None None);
               PairNode (type_token "type" "") (Token Plain (PStr "string") None None)] in
  @accept Sample.keys Sample.repr
    (BlockNode (type_token "dimension" "") None None
               (Some (Token Plain (PStr "outer") None None)) body) (Visitor 0 []) =
  (Ok (PDict [("dimension", PDict [("name", PStr "outer"); ("type", PStr "string")])]),
   Visitor 0 []).
Proof.
  intros body.
  exact (proj1 (@block_name_overrides_body Sample.keys Sample.repr
                  (type_token "dimension" "") (Token Plain (PStr "outer") None None)
                  None None body (Visitor 0 []) "dimension"
                  [("name", PStr "inner"); ("type", PStr "string")] (Visitor 0 [])
                  eq_refl)).
Defined.

(** ** What the builder raises *)

Section BuilderOutcomes.
Context {K : Keys}.

Lemma parse_token_raises key v fq pre suf e :
  parse_token key v fq pre suf = Raise e -> e = AttributeError.
Proof.
  unfold parse_token. destruct (fq || in_keys key QUOTED_LITERAL_KEYS); [discriminate|].
  destruct (in_keys key EXPR_BLOCK_KEYS); [|discriminate].
  destruct v; intros H; inversion H; reflexivity.
Qed.

Lemma parse_pair_raises key v : raises_only builder_exn (parse_pair key v).
Proof.
  intros st e st' H. rewrite parse_pair_eq in H.
  destruct (parse_token key v _ None None) eqn:E; inversion H; subst.
  apply parse_token_raises in E. subst. right; now left.
Qed.

Lemma is_plural_key_raises key : raises_only builder_exn (is_plural_key key).
Proof.
  intros st e st' H. unfold is_plural_key in H.
  repeat match type of H with
         | (if ?c then _ else _) = _ => destruct c
         | (match ?c with Some _ => _ | None => _ end) = _ => destruct c
         end; inversion H. right; now left.
Qed.

Lemma single_item_raises v e : single_item v = Raise e -> builder_exn e.
Proof.
  destruct v as [| | |[|[k x] [|]]|]; simpl; intros H; inversion H;
    first [right; left; reflexivity | right; right; reflexivity].
Qed.

Lemma inline_items_raises key fq i values e :
  inline_items key fq i values = Raise e -> e = AttributeError.
Proof.
  revert i. induction values as [|v values IH]; intros i; simpl; [discriminate|].
  destruct (parse_token key v fq _ None) eqn:E.
  - destruct (inline_items key fq (S i) values) eqn:E'; [discriminate|].
    intros H; inversion H; subst. eapply IH; exact E'.
  - intros H; inversion H; subst. eapply parse_token_raises; exact E.
Qed.

Lemma lift_raises {A} (r : result A) (P : exn -> Prop) :
  (forall e, r = Raise e -> P e) -> raises_only P (@lift DictParser A r).
Proof. intros Hr st e st' H. inversion H; subst. now apply Hr. Qed.

Lemma parse_list_raises key values : raises_only builder_exn (parse_list key values).
Proof.
  unfold parse_list.
  apply raises_only_bind; [intros ? ? ? ?; discriminate|]. intros ? ? ? ?.
  apply raises_only_bind; [intros ? ? ? ?; discriminate|]. intros ? ? ? ?.
  destruct ((5 <=? Z.of_nat (length values))%Z || _).
  - apply raises_only_bind; [intros ? ? ? ?; discriminate|]. intros ? ? ? ?.
    apply raises_only_bind.
    + apply raises_only_mapM, Forall_forall. intros v _.
      destruct (match values with [] => false | v0 :: _ => negb (is_str_or_int v0) end).
      * apply raises_only_bind; [apply lift_raises, single_item_raises|].
        intros ? [k x] ? ?. apply parse_pair_raises.
      * apply raises_only_bind; [intros ? ? ? ?; discriminate|]. intros ? ? ? ?.
        apply raises_only_bind; [|intros; apply raises_only_ret].
        apply lift_raises. intros e He. apply parse_token_raises in He. subst.
        right; now left.
    + intros ? ? ? ?.
      apply raises_only_bind; [intros ? ? ? ?; discriminate|]. intros ? ? ? ?.
      apply raises_only_bind; [intros ? ? ? ?; discriminate|]. intros ? ? ? ?.
      apply raises_only_bind; [intros ? ? ? ?; discriminate|]. intros ? ? ? ?.
      apply raises_only_ret.
  - apply raises_only_bind.
    + apply lift_raises. intros e He. apply inline_items_raises in He. subst.
      right; now left.
    + intros ? ? ? ?.
      apply raises_only_bind; [intros ? ? ? ?; discriminate|]. intros ? ? ? ?.
      apply raises_only_ret.
Qed.

Lemma parse_items_raises rec skip (d : pydict) :
  Forall (fun kv => forall k, raises_only builder_exn (rec k (snd kv))) d ->
  raises_only builder_exn (parse_items rec skip d).
Proof.
  induction 1 as [|[k v] d Hv _ IH]; simpl.
  - apply raises_only_ret.
  - destruct (skip k); [exact IH|].
    apply raises_only_bind; [apply Hv|]. intros ? [r v'] ? ?.
    apply raises_only_bind; [exact IH|]. intros ? [rs d''] ? ?. apply raises_only_ret.
Qed.

Lemma parse_values_raises rec (vs : list pyval) :
  Forall (fun v => raises_only builder_exn (rec v)) vs ->
  raises_only builder_exn (parse_values rec vs).
Proof.
  induction 1 as [|v vs Hv _ IH]; simpl.
  - apply raises_only_ret.
  - apply raises_only_bind; [apply Hv|]. intros ? [r v'] ? ?.
    apply raises_only_bind; [exact IH|]. intros ? [rs d''] ? ?. apply raises_only_ret.
Qed.

Lemma parse_block_around_raises key name body :
  raises_only builder_exn body ->
  raises_only builder_exn (parse_block_around key name body).
Proof.
  intros Hb. unfold parse_block_around.
  apply raises_only_bind; [intros ? ? ? ?; discriminate|]. intros ? ? ? ?.
  apply raises_only_bind; [intros ? ? ? ?; discriminate|]. intros ? ? ? ?.
  apply raises_only_bind; [intros ? ? ? ?; discriminate|]. intros ? ? ? ?.
  apply raises_only_bind; [exact Hb|]. intros ? [nodes items'] ? ?.
  apply raises_only_bind; [intros ? ? ? ?; discriminate|]. intros ? ? ? ?.
  apply raises_only_bind; [intros ? ? ? ?; discriminate|]. intros ? ? ? ?.
  apply raises_only_bind; [intros ? ? ? ?; discriminate|]. intros ? ? ? ?.
  apply raises_only_bind; [intros ? ? ? ?; discriminate|]. intros ? ? ? ?.
  apply raises_only_ret.
Qed.

Lemma parse_any_raises (v : pyval) :
  forall key, raises_only builder_exn (parse_any key v).
Proof.
  induction v as [s|z|vs IH|d IH|] using pyval_ind'; intros key; simpl.
  - apply raises_only_bind; [apply parse_pair_raises|]. intros; apply raises_only_ret.
  - apply raises_only_raise. now left.
  - apply raises_only_bind; [apply is_plural_key_raises|]. intros ? [|] ? ?.
    + apply raises_only_bind.
      * apply parse_values_raises.
        eapply Forall_impl; [|exact IH]. intros v Hv. apply Hv.
      * intros ? [nodes values'] ? ?. apply raises_only_ret.
    + apply raises_only_bind; [apply parse_list_raises|].
      intros; apply raises_only_ret.
  - apply raises_only_bind.
    + apply parse_block_around_raises, parse_items_raises.
      eapply Forall_impl; [|exact IH]. intros kv Hkv k. apply Hkv.
    + intros ? [n d'] ? ?. apply raises_only_ret.
  - apply raises_only_raise. now left.
Qed.

(** X8.  Whatever the mapping and the state, a [parse] that raises raises
    the [TypeError] for a value that is no string, list or mapping, an
    [AttributeError] or a [ValueError]; it never raises a [KeyError] or an
    [IndexError]. *)
Theorem parse_raises_type_attribute_or_value (obj : pydict) st e st' :
  parse obj st = (Raise e, st') ->
  e = UnsupportedValueType \/ e = AttributeError \/ e = ValueError.
Proof.
  intros H. unfold parse in H. apply bind_raises in H.
  destruct H as [H|([nodes o] & st1 & _ & H)]; [|discriminate].
  eapply parse_items_raises; [|exact H].
  apply Forall_forall. intros kv _ k. apply parse_any_raises.
Qed.

End BuilderOutcomes.

Lemma parse_raises_type_attribute_or_value_witness :
  ValueError = UnsupportedValueType \/ ValueError = AttributeError \/
  ValueError = ValueError.
Proof.
  exact (@parse_raises_type_attribute_or_value Sample.keys
           [("fields", PList [PDict [("a", PStr "b"); ("c", PStr "d")]])]
           init_parser _ _ eq_refl).
Defined.

(** ** Lists: the node and the state *)

Section ListFacts.
Context {K : Keys}.

Lemma mapM_ok_each {S A B} (f : A -> M S B) (xs : list A) st ys st' :
  mapM f xs st = (Ok ys, st') ->
  Forall2 (fun x y => exists s s', f x s = (Ok y, s')) xs ys.
Proof.
  revert st ys. induction xs as [|x xs IH]; intros st ys H; simpl in H.
  - inversion H. constructor.
  - apply bind_ok in H. destruct H as (y & st1 & Hy & H).
    apply bind_ok in H. destruct H as (ys' & st2 & Hys & H).
    inversion H; subst. constructor; [eauto | eapply IH; exact Hys].
Qed.

Lemma mapM_keeps_field {A B X} (proj : DictParser -> X) (f : A -> M DictParser B)
      (xs : list A) :
  (forall x, keeps_field proj (f x)) -> keeps_field proj (mapM f xs).
Proof.
  intros Hf. induction xs as [|x xs IH]; intros st ys st' H; simpl in H.
  - inversion H; reflexivity.
  - apply bind_ok in H. destruct H as (y & st1 & Hy & H).
    apply bind_ok in H. destruct H as (ys' & st2 & Hys & H).
    inversion H; subst. rewrite (IH _ _ _ Hys). eapply Hf; exact Hy.
Qed.

Lemma parse_pair_ok key v st n st' :
  parse_pair key v st = (Ok n, st') ->
  st' = with_latest_node LPairNode st /\
  exists t, n = PairNode (type_token key (prefix_of st)) t.
Proof.
  rewrite parse_pair_eq. destruct (parse_token key v _ None None); intros H;
    inversion H; subst. eauto.
Qed.

Lemma inline_items_ok key fq i values items :
  inline_items key fq i values = Ok items ->
  forallb is_token_node items = true /\ length items = length values.
Proof.
  revert i items. induction values as [|v values IH]; intros i items; simpl.
  - intros H; inversion H; auto.
  - destruct (parse_token key v fq _ None); [|discriminate].
    destruct (inline_items key fq (S i) values) eqn:E; [|discriminate].
    intros H; inversion H; subst. destruct (IH _ _ E) as [Ha Hl].
    simpl. rewrite Ha, Hl. auto.
Qed.

(** The item built for one element of a multiline list. *)
Lemma multiline_item_ok key fq (pair_mode : bool) v st n st' :
  (if pair_mode then
     '(k, x) <- lift (single_item v) ;; parse_pair k x
   else
     st' <- get_state ;;
     token <- lift (parse_token key v fq (Some (newline_indent st')) None) ;;
     ret (TokenNode token)) st = (Ok n, st') ->
  parent_key st' = parent_key st /\ level st' = level st /\
  (if pair_mode then is_pair_node n else is_token_node n) = true.
Proof.
  destruct pair_mode; intros H.
  - apply bind_ok in H. destruct H as ([k x] & st1 & Hl & H).
    apply lift_ok in Hl. destruct Hl as [_ ->].
    apply parse_pair_ok in H. destruct H as [-> (t & ->)]. auto.
  - apply bind_ok in H. destruct H as (s & st1 & Hs & H). inversion Hs; subst.
    apply bind_ok in H. destruct H as (t & st2 & Ht & H).
    apply lift_ok in Ht. destruct Ht as [_ ->]. inversion H; subst. auto.
Qed.

Lemma forallb_each {A B} (R : A -> B -> Prop) (p : B -> bool) (xs : list A) (ys : list B) :
  Forall2 R xs ys -> (forall x y, R x y -> p y = true) ->
  forallb p ys = true /\ length ys = length xs.
Proof.
  intros H Hp. induction H as [|x y xs ys Hxy _ [IH1 IH2]]; simpl; [auto|].
  rewrite (Hp _ _ Hxy), IH1, IH2. auto.
Qed.

Lemma parse_list_ok key values st n st' :
  parse_list key values st = (Ok n, st') ->
  st' = with_latest_node LListNode (with_parent_key key st) /\
  exists items rb tc,
    n = ListNode (type_token key (prefix_of (with_parent_key key st))) None items rb tc /\
    forallb is_token_node items || forallb is_pair_node items = true /\
    length items = length values.
Proof.
  rewrite parse_list_eq. cbv zeta.
  set (pair_mode := match values with
                    | [] => false
                    | v0 :: _ => negb (is_str_or_int v0)
                    end).
  destruct ((5 <=? Z.of_nat (length values))%Z || pair_mode).
  - destruct (mapM _ values _) as [[items|e] st2] eqn:Hrun; [|discriminate].
    intros H; inversion H; subst; clear H.
    assert (Hp : parent_key st2 = Some key).
    { apply (@mapM_keeps_field _ _ _ parent_key) in Hrun; [exact Hrun|].
      intros v s y s' Hy. now apply multiline_item_ok in Hy. }
    assert (Hl : level st2 = level st + 1).
    { apply (@mapM_keeps_field _ _ _ level) in Hrun; [exact Hrun|].
      intros v s y s' Hy. now apply multiline_item_ok in Hy. }
    split.
    + apply leave_level; [exact Hl | exact Hp].
    + do 3 eexists. split; [reflexivity|].
      apply mapM_ok_each in Hrun.
      destruct (@forallb_each _ _ _ (if pair_mode then is_pair_node else is_token_node)
                  _ _ Hrun) as [Hall Hlen].
      { intros v y (s & s' & Hy). apply multiline_item_ok in Hy.
        destruct pair_mode; tauto. }
      split; [|exact Hlen].
      destruct pair_mode; rewrite Hall; [apply orb_true_r | reflexivity].
  - destruct (inline_items key _ 0 values) as [items|e] eqn:Hrun; [|discriminate].
    intros H; inversion H; subst; clear H.
    split; [reflexivity|]. do 3 eexists. split; [reflexivity|].
    apply inline_items_ok in Hrun. destruct Hrun as [-> Hlen]. auto.
Qed.

(** X9.  A call of [parse_list] that returns leaves the builder with
    [latest_node] at [ListNode], the indent level it found, and
    [parent_key] at the key of the list: the parent key is not put back,
    and the entries built after the list see the key of the list as their
    parent. *)
Theorem parse_list_leaves_its_key (key : string) (values : list pyval) st n st' :
  parse_list key values st = (Ok n, st') ->
  parent_key st' = Some key /\ level st' = level st /\ latest_node st' = LListNode.
Proof.
  intros H. apply parse_list_ok in H. destruct H as [-> _]. auto.
Qed.

(** X10.  The node [parse_list] returns is a list node with one item for
    every element, and the items are all tokens or all pairs: which of the
    two is decided by the first element alone. *)
Theorem list_items_are_homogeneous (key : string) (values : list pyval) st n st' :
  parse_list key values st = (Ok n, st') ->
  exists type lb items rb tc,
    n = ListNode type lb items rb tc /\
    length items = length values /\
    forallb (match values with
             | v0 :: _ => if is_str_or_int v0 then is_token_node else is_pair_node
             | [] => is_token_node
             end) items = true.
Proof.
  intros H. rewrite parse_list_eq in H. cbv zeta in H.
  set (pair_mode := match values with
                    | [] => false
                    | v0 :: _ => negb (is_str_or_int v0)
                    end) in H.
  assert (E : forall items,
             forallb (if pair_mode then is_pair_node else is_token_node) items =
             forallb (match values with
                      | v0 :: _ => if is_str_or_int v0 then is_token_node else is_pair_node
                      | [] => is_token_node
                      end) items).
  { intros items. unfold pair_mode. destruct values as [|v0 ?]; [reflexivity|].
    destruct (is_str_or_int v0); reflexivity. }
  destruct ((5 <=? Z.of_nat (length values))%Z || pair_mode) eqn:Hc.
  - destruct (mapM _ values _) as [[items|e] st2] eqn:Hrun; [|discriminate].
    inversion H; subst; clear H. do 5 eexists. split; [reflexivity|].
    apply mapM_ok_each in Hrun.
    destruct (@forallb_each _ _ _ (if pair_mode then is_pair_node else is_token_node)
                _ _ Hrun) as [Hall Hlen].
    { intros v y (s & s' & Hy). apply multiline_item_ok in Hy.
      destruct pair_mode; tauto. }
    rewrite <- E. auto.
  - destruct (inline_items key _ 0 values) as [items|e] eqn:Hrun; [|discriminate].
    inversion H; subst; clear H. do 5 eexists. split; [reflexivity|].
    apply inline_items_ok in Hrun. destruct Hrun as [Hall Hlen].
    split; [exact Hlen|]. rewrite <- E.
    apply orb_false_iff in Hc. destruct Hc as [_ ->]. exact Hall.
Qed.

End ListFacts.

Lemma parse_list_leaves_its_key_witness :
  parent_key (with_latest_node LListNode (with_parent_key "fields" init_parser)) =
    Some "fields" /\
  level (with_latest_node LListNode (with_parent_key "fields" init_parser)) =
    level init_parser /\
  latest_node (with_latest_node LListNode (with_parent_key "fields" init_parser)) =
    LListNode.
Proof.
  exact (@parse_list_leaves_its_key Sample.keys "fields" [PStr "a"; PStr "b"]
           init_parser _ _ eq_refl).
Defined.

Lemma list_items_are_homogeneous_witness :
  exists type lb items rb tc,
    ListNode (type_token "filters" "") None
             [PairNode (type_token "a" (PyStr.nl ++ "  ")) (Token Quoted (PStr "b") None None)]
             (Some PyStr.nl) true = ListNode type lb items rb tc /\
    length items = length [PDict [("a", PStr "b")]] /\
    forallb is_pair_node items = true.
Proof.
  exact (@list_items_are_homogeneous Sample.keys "filters" [PDict [("a", PStr "b")]]
           init_parser _ _ eq_refl).
Defined.

(** ** Blocks: braces, name and state *)

Section BlockFacts.
Context {K : Keys}.
Import PyStr.

Lemma parse_block_around_node key name body st n items' st' :
  keeps_level body ->
  parse_block_around key name body st = (Ok (n, items'), st') ->
  exists nodes st2,
    body (with_latest_node LNone (with_level (level st + 1) (with_parent_key key st)))
      = (Ok (nodes, items'), st2) /\
    st' = with_latest_node LBlockNode (with_level (level st) st2) /\
    n = BlockNode
          (type_token key
             (match latest_node st with
              | LDocumentNode => ""
              | LNone => nl ++ indent st
              | _ => nl ++ nl ++ indent st
              end))
          (Some (if name_given name then " " else ""))
          (Some (match flatten nodes with [] => "" | _ :: _ => nl ++ indent st end))
          (match name with
           | Some v => if truthy v then Some (Token Plain v None None) else None
           | None => None
           end)
          (flatten nodes).
Proof.
  intros Hb H. unfold parse_block_around in H. inv_ok H.
  unfold set_parent_key, get_state, increase_level, decrease_level,
    set_latest_node in *.
  repeat match goal with
         | E : (Ok _, _) = (Ok _, _) |- _ => inversion E; clear E; subst
         end.
  match goal with E : body _ = (Ok (?l, _), ?s) |- _ =>
    exists l, s; pose proof (Hb _ _ _ E) as Hl; simpl in Hl;
    assert (Hi : forall la q,
               indent (with_latest_node la (with_level (level s - 1) q)) = indent st)
      by (intros la q; unfold indent; simpl;
          replace (level s - 1) with (level st) by lia; reflexivity)
  end.
  split; [assumption|]. split.
  - unfold with_latest_node, with_level; simpl. f_equal. lia.
  - simpl latest_node.
    unfold prefix_of, newline_indent. simpl latest_node. rewrite !Hi.
    unfold name_given. destruct (latest_node st); reflexivity.
Qed.

Lemma keeps_level_body skip (d : pydict) :
  keeps_level (parse_items parse_any skip d).
Proof.
  apply keeps_level_parse_items, Forall_forall. intros kv _ k.
  apply keeps_level_parse_any.
Qed.

(** X11.  The block [parse_block] returns has a space before its opening
    brace exactly when it is given a name that is true in Python, and an
    empty prefix on its closing brace exactly when no node was built for
    its body; otherwise the closing brace is on a line of its own at the
    indent of the block.  A body without entries gives a block without
    nodes. *)
Theorem block_braces (key : string) (items : pydict) (name : option pyval) st n items' st' :
  parse_block key items name st = (Ok (n, items'), st') ->
  exists type body,
    n = BlockNode type
          (Some (if name_given name then " " else ""))
          (Some (match body with [] => "" | _ :: _ => nl ++ indent st end))
          (match name with
           | Some v => if truthy v then Some (Token Plain v None None) else None
           | None => None
           end)
          body /\
    (items = [] -> body = []).
Proof.
  intros H. apply parse_block_around_node in H; [|apply keeps_level_body].
  destruct H as (nodes & st2 & Hbody & _ & ->).
  do 2 eexists. split; [reflexivity|].
  intros ->. simpl in Hbody. inversion Hbody. reflexivity.
Qed.

Lemma removed_key_absent (k : string) (d : pydict) :
  ~ In k (Dict.keys (Dict.remove k d)).
Proof.
  unfold Dict.remove, Dict.keys. intros H. apply in_map_iff in H.
  destruct H as ([k' v] & E & H). apply filter_In in H. destruct H as [_ H].
  simpl in *. subst k'. now rewrite String.eqb_refl in H.
Qed.

(** X12.  When [parse_any] takes the name out of a mapping, the name it
    finds becomes the name token of the block only if it is true in
    Python: an empty string (or [0], an empty list, an empty mapping,
    [None]) gives a block without a name.  In both cases the mapping of
    the caller is left without its ["name"] entry. *)
Theorem popped_name_becomes_token_if_true (key : string) (d : pydict) st r v' st' :
  pops_name key d = true ->
  parse_any key (PDict d) st = (Ok (r, v'), st') ->
  exists nm type lb rb body d',
    Dict.get "name" d = Some nm /\
    r = One (BlockNode type lb rb
                       (if truthy nm then Some (Token Plain nm None None) else None)
                       body) /\
    v' = PDict d' /\
    Dict.get "name" d' = None.
Proof.
  intros Hpop H.
  assert (Hmem : exists nm, Dict.get "name" d = Some nm).
  { unfold pops_name, Dict.mem in Hpop.
    destruct (Dict.get "name" d) as [nm|]; [eauto|].
    now rewrite orb_true_r in Hpop. }
  destruct Hmem as (nm & Hnm). exists nm.
  rewrite parse_any_dict in H. rewrite Hpop, Hnm in H.
  apply bind_ok in H. destruct H as ([n d'] & st1 & Hb & H). inversion H; subst.
  unfold parse_block in Hb.
  apply parse_block_around_node in Hb; [|apply keeps_level_body].
  destruct Hb as (nodes & st2 & Hbody & _ & ->).
  do 4 eexists. exists d'. split; [exact Hnm|]. split; [reflexivity|].
  split; [reflexivity|].
  apply dict_get_absent.
  rewrite (parse_items_keys _ _ _ Hbody). apply removed_key_absent.
Qed.

End BlockFacts.

Lemma block_braces_witness :
  exists type body,
    BlockNode (type_token "dimension" "") (Some " ") (Some "")
              (Some (Token Plain (PStr "id") None None)) [] =
    BlockNode type (Some " ") (Some (match body with
                                     | [] => ""
                                     | _ :: _ => PyStr.nl ++ indent init_parser
                                     end))
              (Some (Token Plain (PStr "id") None None)) body /\
    (@nil (string * pyval) = [] -> body = []).
Proof.
  exact (@block_braces Sample.keys "dimension" [] (Some (PStr "id")) init_parser
           _ _ _ eq_refl).
Defined.

Lemma popped_name_becomes_token_if_true_witness :
  exists nm type lb rb body d',
    Dict.get "name" [("name", PStr ""); ("type", PStr "string")] = Some nm /\
    One (BlockNode (type_token "dimension" "") (Some "") (Some PyStr.nl) None
                   [PairNode (type_token "type" (PyStr.nl ++ "  "))
                             (Token Plain (PStr "string") None None)]) =
    One (BlockNode type lb rb
                   (if truthy nm then Some (Token Plain nm None None) else None) body) /\
    PDict [("type", PStr "string")] = PDict d' /\
    Dict.get "name" d' = None.
Proof.
  exact (@popped_name_becomes_token_if_true Sample.keys "dimension"
           [("name", PStr ""); ("type", PStr "string")] init_parser _ _ _
           eq_refl eq_refl).
Defined.

(** ** The tree and the state a build ends with *)

Section BuiltTree.
Context {K : Keys}.

Lemma is_plural_key_state key st b st' :
  is_plural_key key st = (Ok b, st') -> st' = st.
Proof.
  unfold is_plural_key. intros H.
  repeat match type of H with
         | (if ?c then _ else _) = _ => destruct c
         | (match ?c with Some _ => _ | None => _ end) = _ => destruct c
         end; inversion H; reflexivity.
Qed.

Lemma latest_after_app (a b : list node) (l : latest) :
  latest_after (a ++ b) l = latest_after b (latest_after a l).
Proof. unfold latest_after. apply fold_left_app. Qed.

Lemma parse_items_built skip (d : pydict) :
  Forall (fun kv => builds_container_items (snd kv)) d ->
  forall st rs d' st',
    parse_items parse_any skip d st = (Ok (rs, d'), st') ->
    forallb container_item (flatten rs) = true /\
    latest_node st' = latest_after (flatten rs) (latest_node st).
Proof.
  induction 1 as [|[k v] d Hv _ IH]; intros st rs d' st' H; simpl in H.
  - inversion H; subst. split; reflexivity.
  - destruct (skip k); [eapply IH; exact H|].
    apply bind_ok in H. destruct H as ([r1 v1] & st1 & H1 & H).
    apply bind_ok in H. destruct H as ([rs1 d1] & st3 & H2 & H).
    inversion H; subst.
    destruct (Hv _ _ _ _ _ H1) as [Ha Hb].
    destruct (IH _ _ _ _ H2) as [Ha' Hb'].
    rewrite flatten_cons, forallb_app, latest_after_app, Ha, Ha', Hb', Hb.
    split; reflexivity.
Qed.

Lemma parse_values_built key (vs : list pyval) :
  Forall builds_container_items vs ->
  forall st rs vs' st',
    parse_values (parse_any key) vs st = (Ok (rs, vs'), st') ->
    forallb container_item (flatten rs) = true /\
    latest_node st' = latest_after (flatten rs) (latest_node st).
Proof.
  induction 1 as [|v vs Hv _ IH]; intros st rs vs' st' H; simpl in H.
  - inversion H; subst. split; reflexivity.
  - apply bind_ok in H. destruct H as ([r1 v1] & st1 & H1 & H).
    apply bind_ok in H. destruct H as ([rs1 vs1] & st3 & H2 & H).
    inversion H; subst.
    destruct (Hv _ _ _ _ _ H1) as [Ha Hb].
    destruct (IH _ _ _ _ H2) as [Ha' Hb'].
    rewrite flatten_cons, forallb_app, latest_after_app, Ha, Ha', Hb', Hb.
    split; reflexivity.
Qed.

(** What one call of [parse_any] that returns has built and left. *)
Lemma parse_any_built (v : pyval) : builds_container_items v.
Proof.
  induction v as [s|z|vs IH|d IH|] using pyval_ind'; intros key st r v' st' H.
  - simpl in H. apply bind_ok in H. destruct H as (n & st1 & Hn & H).
    inversion H; subst. apply parse_pair_ok in Hn. destruct Hn as [-> (t & ->)].
    split; reflexivity.
  - discriminate.
  - simpl in H. apply bind_ok in H. destruct H as (b & st1 & Hb & H).
    apply is_plural_key_state in Hb. subst st1. destruct b.
    + apply bind_ok in H. destruct H as ([rs vs'] & st2 & Hrun & H).
      inversion H; subst. clear H.
      unfold flatten at 1 3. simpl flat_map. rewrite app_nil_r.
      eapply parse_values_built; [exact IH | exact Hrun].
    + apply bind_ok in H. destruct H as (n & st2 & Hn & H). inversion H; subst.
      apply parse_list_ok in Hn.
      destruct Hn as [-> (items & rb & tc & -> & Hitems & _)].
      split; [|reflexivity]. unfold flatten. simpl. now rewrite Hitems.
  - simpl in H. apply bind_ok in H. destruct H as ([n d'] & st1 & Hb & H).
    inversion H; subst. clear H.
    apply parse_block_around_node in Hb; [|apply keeps_level_body].
    destruct Hb as (nodes & st2 & Hbody & -> & ->).
    split; [|reflexivity]. unfold flatten at 1. simpl. rewrite andb_true_r.
    eapply parse_items_built; [exact IH | exact Hbody].
  - discriminate.
Qed.

Lemma all_build_container_items (d : pydict) :
  Forall (fun kv => builds_container_items (snd kv)) d.
Proof. apply Forall_forall. intros kv _. apply parse_any_built. Qed.

(** X13.  In a tree that [parse] returns, every container holds blocks,
    lists and pairs only, never a bare token, and every list holds tokens
    only or pairs only; this holds at every depth. *)
Theorem built_tree_is_well_formed (obj obj' : pydict) doc st st' :
  parse obj st = (Ok (doc, obj'), st') ->
  forallb container_item (doc_container doc) = true.
Proof.
  intros H. unfold parse in H.
  apply bind_ok in H. destruct H as ([rs o] & st1 & Hrun & H). inversion H; subst.
  simpl. eapply parse_items_built; [apply all_build_container_items | exact Hrun].
Qed.

(** X14.  When [parse] returns, the indent level is the one it started
    with and [latest_node] is the class of the last node of the document,
    or is unchanged when the document has no node. *)
Theorem parse_leaves_level_and_last_kind (obj obj' : pydict) doc st st' :
  parse obj st = (Ok (doc, obj'), st') ->
  level st' = level st /\
  latest_node st' = latest_after (doc_container doc) (latest_node st).
Proof.
  intros H. unfold parse in H.
  apply bind_ok in H. destruct H as ([rs o] & st1 & Hrun & H). inversion H; subst.
  split.
  - eapply keeps_level_body; exact Hrun.
  - simpl. eapply parse_items_built; [apply all_build_container_items | exact Hrun].
Qed.

End BuiltTree.

Lemma built_tree_is_well_formed_witness :
  forallb container_item
    [BlockNode (type_token "view" "") (Some "") (Some PyStr.nl) None
       [ListNode (type_token "fields" (PyStr.nl ++ "  ")) None
                 [TokenNode (Token Plain (PStr "a") None None)] None false]] = true.
Proof.
  exact (@built_tree_is_well_formed Sample.keys
           [("view", PDict [("fields", PList [PStr "a"])])] _ _ init_parser _ eq_refl).
Defined.

Lemma parse_leaves_level_and_last_kind_witness :
  level (Parser (Some "fields") 0 LListNode) = level init_parser /\
  latest_node (Parser (Some "fields") 0 LListNode) =
  latest_after
    [PairNode (type_token "label" "") (Token Quoted (PStr "x") None None);
     ListNode (type_token "fields" PyStr.nl) None
              [TokenNode (Token Plain (PStr "a") None None)] None false]
    (latest_node init_parser).
Proof.
  exact (@parse_leaves_level_and_last_kind Sample.keys
           [("label", PStr "x"); ("fields", PList [PStr "a"])] _ _ init_parser _ eq_refl).
Defined.

(** ** Forced quoting: [suggestions] and [filters] *)

Section ForcedQuoting.
Context {K : Keys}.

Lemma parse_token_forced key v pre suf :
  parse_token key v true pre suf = Ok (Token Quoted v pre suf).
Proof. reflexivity. Qed.

Lemma inline_items_forced key (values : list pyval) (i : nat) :
  exists items,
    inline_items key true i values = Ok items /\
    Forall2 (fun v item => exists pre, item = TokenNode (Token Quoted v pre None))
            values items.
Proof.
  revert i. induction values as [|v values IH]; intros i; simpl.
  - exists []. split; [reflexivity | constructor].
  - destruct (IH (S i)) as (items & -> & Hall).
    eexists. split; [reflexivity|]. constructor; eauto.
Qed.

(** X15.  The elements of a list held under [suggestions] are always built
    as quoted tokens that hold the element unchanged, whatever the tables
    say about the key and whatever the length of the list; the list is
    always built when its first element is a string or an integer. *)
Theorem suggestions_list_is_quoted (values : list pyval) (st : DictParser) :
  match values with v0 :: _ => is_str_or_int v0 = true | [] => True end ->
  exists type lb items rb tc st',
    parse_list "suggestions" values st = (Ok (ListNode type lb items rb tc), st') /\
    Forall2 (fun v item => exists pre, item = TokenNode (Token Quoted v pre None))
            values items.
Proof.
  intros Hfirst. rewrite parse_list_eq. cbv zeta.
  change (String.eqb "suggestions" "suggestions") with true.
  assert (Hpm : match values with
                | [] => false
                | v0 :: _ => negb (is_str_or_int v0)
                end = false).
  { destruct values as [|v0 ?]; [reflexivity | now rewrite Hfirst]. }
  rewrite Hpm, orb_false_r.
  destruct (5 <=? Z.of_nat (length values))%Z.
  - set (st2 := with_latest_node LNone _).
    rewrite (@multiline_items_run K "suggestions" true st2 values
               (map (fun v => Token Quoted v (Some (newline_indent st2)) None) values)).
    + do 6 eexists. split; [reflexivity|].
      clear. induction values; simpl; constructor; eauto.
    + clear. induction values; simpl; constructor; auto.
  - destruct (inline_items_forced "suggestions" values 0) as (items & -> & Hall).
    do 6 eexists. split; [reflexivity | exact Hall].
Qed.

(** String-valued entries built while the parent key is ["filters"]. *)
Lemma filters_entries_quoted (d : pydict) :
  Forall (fun kv => exists s, snd kv = PStr s) d ->
  forall st, parent_key st = Some "filters" ->
  exists rs st',
    parse_items parse_any (fun _ => false) d st = (Ok (rs, d), st') /\
    Forall2 (fun kv n => exists pre,
                 n = PairNode (type_token (fst kv) pre) (Token Quoted (snd kv) None None))
            d (flatten rs).
Proof.
  induction 1 as [|[k v] d (s & Hs) _ IH]; intros st Hp; simpl.
  - exists [], st. split; [reflexivity | constructor].
  - simpl in Hs. subst v.
    assert (Hrun : parse_pair k (PStr s) st =
                   (Ok (PairNode (type_token k (prefix_of st))
                                 (Token Quoted (PStr s) None None)),
                    with_latest_node LPairNode st)).
    { rewrite parse_pair_eq. unfold pair_force_quote. rewrite Hp. reflexivity. }
    destruct (IH (with_latest_node LPairNode st) Hp) as (rs & st' & Hrest & Hall).
    do 2 eexists. split.
    + change (parse_any k (PStr s))
        with (n <- parse_pair k (PStr s) ;; ret (One n, PStr s)).
      unfold bind. rewrite Hrun. unfold ret.
      fold (@bind DictParser (list any_result * pydict)).
      rewrite Hrest. reflexivity.
    + rewrite flatten_cons. unfold flatten at 1. simpl. constructor; eauto.
Qed.

(** X16.  When [parse_block] is called with the key [filters] on a
    mapping whose values are all strings, it returns a block, and every
    entry is built as a pair whose value is a quoted token holding the
    string unchanged, whatever the tables say about the key of the pair:
    an expression key is not stripped there. *)
Theorem filters_block_quotes_every_pair (d : pydict) (name : option pyval) st :
  Forall (fun kv => exists s, snd kv = PStr s) d ->
  exists type lb rb nm body st',
    parse_block "filters" d name st = (Ok (BlockNode type lb rb nm body, d), st') /\
    Forall2 (fun kv n => exists pre,
                 n = PairNode (type_token (fst kv) pre) (Token Quoted (snd kv) None None))
            d body.
Proof.
  intros Hd.
  destruct (filters_entries_quoted Hd
              (with_latest_node LNone
                 (with_level (level st + 1) (with_parent_key "filters" st)))
              eq_refl)
    as (rs & st2 & Hrun & Hall).
  destruct (parse_block_around_run "filters" name _ st Hrun)
    as (pre & lb & rb & st' & Hblock & _).
  unfold parse_block. rewrite Hblock. do 6 eexists. split; [reflexivity | exact Hall].
Qed.

End ForcedQuoting.

Lemma suggestions_list_is_quoted_witness :
  exists type lb items rb tc st',
    @parse_list Sample.keys "suggestions" [PStr " a "; PInt 2] init_parser =
      (Ok (ListNode type lb items rb tc), st') /\
    Forall2 (fun v item => exists pre, item = TokenNode (Token Quoted v pre None))
            [PStr " a "; PInt 2] items.
Proof.
  exact (@suggestions_list_is_quoted Sample.keys [PStr " a "; PInt 2] init_parser eq_refl).
Defined.

Lemma filters_block_quotes_every_pair_witness :
  exists type lb rb nm body st',
    @parse_block Sample.keys "filters" [("sql", PStr " x ")] None init_parser =
      (Ok (BlockNode type lb rb nm body, [("sql", PStr " x ")]), st') /\
    Forall2 (fun kv n => exists pre,
                 n = PairNode (type_token (fst kv) pre) (Token Quoted (snd kv) None None))
            [("sql", PStr " x ")] body.
Proof.
  apply (@filters_block_quotes_every_pair Sample.keys).
  repeat constructor. exists " x ". reflexivity.
Defined.

(** ** Repeatable keys at the edges *)

Section EmptyRepeatable.
Context {K : Keys} {R : Repr}.

Lemma flatten_all_empty (A : Type) (xs : list A) :
  flatten (map (fun _ => Many []) xs) = [].
Proof. induction xs as [|x xs IH]; [reflexivity | exact IH]. Qed.

Lemma parse_items_empty_lists (obj : pydict) (st : DictParser) :
  Forall (fun kv => snd kv = PList [] /\
                    in_keys (singularize (fst kv)) PLURAL_KEYS = true /\
                    singularize (fst kv) <> "allowed_value") obj ->
  parse_items parse_any (fun _ => false) obj st =
    (Ok (map (fun _ => Many []) obj, obj), st).
Proof.
  induction 1 as [|[k v] obj (Hv & Hin & Hne) _ IH]; [reflexivity|].
  simpl in Hv, Hin, Hne. subst v.
  assert (Hrun : parse_any k (PList []) st = (Ok (Many [], PList []), st)).
  { rewrite parse_any_list. unfold bind at 1.
    rewrite is_plural_key_static by (intros _; exact Hne).
    rewrite Hin. reflexivity. }
  change (parse_items parse_any (fun _ => false) ((k, PList []) :: obj) st)
    with (('(r, v') <- parse_any k (PList []) ;;
           '(rs, kvs'') <- parse_items parse_any (fun _ => false) obj ;;
           ret (r :: rs, (k, v') :: kvs'')) st).
  unfold bind at 1. rewrite Hrun. unfold bind at 1. rewrite IH. reflexivity.
Qed.

(** X17.  An empty list under a key whose singular is a repeatable key
    other than [allowed_value] builds no node at all: a mapping whose
    entries are all of that kind builds the empty document, which is
    visited to the empty mapping, so the keys are not brought back. *)
Theorem empty_repeatable_lists_vanish (obj : pydict) (st : DictParser)
        (vst : DictVisitor) :
  Forall (fun kv => snd kv = PList [] /\
                    in_keys (singularize (fst kv)) PLURAL_KEYS = true /\
                    singularize (fst kv) <> "allowed_value") obj ->
  parse obj st = (Ok (Document [], obj), st) /\
  visit (Document []) vst = (Ok [], vst).
Proof.
  intros H. split; [|reflexivity].
  unfold parse, bind. rewrite (parse_items_empty_lists st H).
  unfold ret. now rewrite flatten_all_empty.
Qed.

(** X18.  A repeatable key [k] and a string held under its plural.  Built
    and visited with the plural first, the visit ends with an
    [AttributeError]: the string under the plural cannot be appended to.
    With the plural last, the list collected for [k] is replaced by the
    string, with a warning for the plural. *)
Theorem plural_key_held_by_a_string (k s1 s2 : string) :
  in_keys k PLURAL_KEYS = true ->
  in_keys (pluralize k) PLURAL_KEYS = false ->
  (exists doc st',
      parse [(pluralize k, PStr s1); (k, PStr s2)] init_parser =
        (Ok (doc, [(pluralize k, PStr s1); (k, PStr s2)]), st') /\
      fst (visit doc init_visitor) = Raise AttributeError) /\
  (exists doc st',
      parse [(k, PStr s2); (pluralize k, PStr s1)] init_parser =
        (Ok (doc, [(k, PStr s2); (pluralize k, PStr s1)]), st') /\
      visit doc init_visitor =
        (Ok [(pluralize k, PStr (norm_value (pluralize k) s1))],
         {| depth := -1; warnings := [pluralize k] |})).
Proof.
  intros Hk Hpk.
  assert (Hnf1 : no_filters_parent init_parser) by discriminate.
  assert (Hnf2 : no_filters_parent (with_latest_node LPairNode init_parser))
    by discriminate.
  assert (Hmem : forall x, Dict.mem (pluralize k) [(pluralize k, x)] = true).
  { intros x. unfold Dict.mem. simpl. now rewrite String.eqb_refl. }
  split.
  - destruct (parse_pair_visits (pluralize k) s1 Hnf1) as (n1 & Hb1 & Hv1).
    destruct (parse_pair_visits k s2 Hnf2) as (n2 & Hb2 & Hv2).
    exists (Document [n1; n2]). eexists. split.
    + unfold parse. simpl. unfold bind. rewrite Hb1. unfold ret.
      rewrite Hb2. reflexivity.
    + unfold visit, visit_container. simpl.
      unfold bind, add_depth. rewrite Hv1. simpl. rewrite Hpk. simpl.
      unfold ret. rewrite Hv2. simpl. rewrite Hk, Hmem.
      rewrite String.eqb_refl. reflexivity.
  - destruct (parse_pair_visits k s2 Hnf1) as (n2 & Hb2 & Hv2).
    destruct (parse_pair_visits (pluralize k) s1 Hnf2) as (n1 & Hb1 & Hv1).
    exists (Document [n2; n1]). eexists. split.
    + unfold parse. simpl. unfold bind. rewrite Hb2. unfold ret.
      rewrite Hb1. reflexivity.
    + unfold visit, visit_container. simpl.
      unfold bind, add_depth. rewrite Hv2. simpl. rewrite Hk. simpl.
      unfold ret. rewrite Hv1. simpl. rewrite Hpk, Hmem. simpl.
      rewrite String.eqb_refl. reflexivity.
Qed.

End EmptyRepeatable.

Lemma empty_repeatable_lists_vanish_witness :
  @parse Sample.keys [("views", PList []); ("explores", PList [])] init_parser =
    (Ok (Document [], [("views", PList []); ("explores", PList [])]), init_parser) /\
  @visit Sample.keys Sample.repr (Document []) init_visitor = (Ok [], init_visitor).
Proof.
  apply (@empty_repeatable_lists_vanish Sample.keys Sample.repr).
  repeat constructor; discriminate.
Defined.

Lemma plural_key_held_by_a_string_witness :
  (exists doc st',
      @parse Sample.keys [("views", PStr "a"); ("view", PStr "b")] init_parser =
        (Ok (doc, [("views", PStr "a"); ("view", PStr "b")]), st') /\
      fst (@visit Sample.keys Sample.repr doc init_visitor) = Raise AttributeError) /\
  (exists doc st',
      @parse Sample.keys [("view", PStr "b"); ("views", PStr "a")] init_parser =
        (Ok (doc, [("view", PStr "b"); ("views", PStr "a")]), st') /\
      @visit Sample.keys Sample.repr doc init_visitor =
        (Ok [("views", PStr "a")], {| depth := -1; warnings := ["views"] |})).
Proof.
  exact (@plural_key_held_by_a_string Sample.keys Sample.repr "view" "a" "b"
           eq_refl eq_refl).
Defined.

(** ** The exception for [allowed_value], and the indentation *)

Section KeyAndIndent.
Context {K : Keys}.

Lemma rstrip_by_all (p : ascii -> bool) (s : string) :
  PyStrSpec.all_by p s = true -> PyStr.rstrip_by p s = "".
Proof.
  induction s as [|c s IH]; [reflexivity|]. simpl.
  intros H. apply andb_true_iff in H. destruct H as [Hc Hs].
  now rewrite (IH Hs), Hc.
Qed.

Lemma rstrip_by_app_all (p : ascii -> bool) (a b : string) :
  PyStrSpec.all_by p b = true ->
  PyStr.rstrip_by p (a ++ b) = PyStr.rstrip_by p a.
Proof.
  intros Hb. induction a as [|c a IH]; simpl.
  - now apply rstrip_by_all.
  - now rewrite IH.
Qed.

Lemma all_s_repeat (n : nat) :
  PyStrSpec.all_by (Ascii.eqb "s"%char) (PyStr.repeat_str "s" n) = true.
Proof. induction n as [|n IH]; [reflexivity | exact IH]. Qed.

(** X19.  [allowed_value] is not repeatable under the parent key
    [access_grant] followed by any number of [s], since the parent key is
    stripped of every trailing [s]; a list held under it is then built as
    one list node. *)
Theorem allowed_value_under_access_grants (key : string) (n : nat)
        (values : list pyval) (st : DictParser) :
  singularize key = "allowed_value" ->
  parent_key st = Some ("access_grant" ++ PyStr.repeat_str "s" n) ->
  is_plural_key key st = (Ok false, st) /\
  parse_any key (PList values) st =
    (x <- parse_list key values ;; ret (One x, PList values)) st.
Proof.
  intros Hsing Hparent.
  assert (Hplural : is_plural_key key st = (Ok false, st)).
  { unfold is_plural_key. rewrite Hsing, Hparent.
    unfold PyStr.rstrip_s.
    rewrite (rstrip_by_app_all _ "access_grant" _ (all_s_repeat n)).
    destruct (in_keys "allowed_value" PLURAL_KEYS); reflexivity. }
  split; [exact Hplural|].
  now apply parse_any_list_not_plural.
Qed.

Lemma length_repeat_base (n : nat) :
  String.length (PyStr.repeat_str base_indent n) = (2 * n)%nat /\
  PyStrSpec.all_by (Ascii.eqb " "%char) (PyStr.repeat_str base_indent n) = true.
Proof.
  induction n as [|n [IHl IHa]]; [split; reflexivity|].
  split; simpl in *; [rewrite IHl; lia | exact IHa].
Qed.

(** X20.  The indentation is made of spaces only, two for each level, and
    is empty at level zero and below. *)
Theorem indent_is_two_spaces_a_level (st : DictParser) :
  String.length (indent st) = (2 * Z.to_nat (level st))%nat /\
  PyStrSpec.all_by (Ascii.eqb " "%char) (indent st) = true.
Proof.
  unfold indent. destruct (Z.ltb_spec 0 (level st)) as [Hpos|Hle].
  - apply length_repeat_base.
  - replace (Z.to_nat (level st)) with 0%nat by lia. split; reflexivity.
Qed.

End KeyAndIndent.

Lemma allowed_value_under_access_grants_witness :
  @is_plural_key Sample.keys "allowed_values"
    (with_parent_key "access_grantss" init_parser) =
    (Ok false, with_parent_key "access_grantss" init_parser) /\
  @parse_any Sample.keys "allowed_values" (PList [PStr "a"])
    (with_parent_key "access_grantss" init_parser) =
    (x <- @parse_list Sample.keys "allowed_values" [PStr "a"] ;;
     ret (One x, PList [PStr "a"])) (with_parent_key "access_grantss" init_parser).
Proof.
  exact (@allowed_value_under_access_grants Sample.keys "allowed_values" 2
           [PStr "a"] (with_parent_key "access_grantss" init_parser)
           eq_refl eq_refl).
Defined.
